(** * The signalling core of the meeting client (src/utils/webrtc.ts)

    A shallow embedding of [WebRTCManager]: the fields of the class, the
    presence and broadcast handlers registered in [initialize], the private
    methods [createPeerConnection], [handleOffer], [handleAnswer],
    [handleIceCandidate], [removePeer], and the public [toggleVideo],
    [toggleAudio] and [cleanup].

    The class is event driven.  Every handler body is a transition on a
    [World]; each [await] in an [async] method is a suspension point, kept
    as a [Task] in [pending] and continued by the event [Resume].  What the
    manager does towards its surroundings (broadcasts on the channel, calls
    of the three UI callbacks, rejected promises nobody catches) is
    appended to [trace].  The three callbacks are optional in the class
    ([?.]); the trace records the call the manager makes when one is
    supplied, as the meeting page does. *)

From stdpp Require Import gmap strings list fin_maps.

Set Default Proof Using "Type".

(** ** Local media *)

Inductive TrackKind := AudioTrack | VideoTrack.

(** A [MediaStreamTrack]: [enabled] is the mute flag written by
    [toggleVideo]/[toggleAudio]; [track_stopped] is set by [track.stop()]. *)
Record MediaStreamTrack := mkTrack {
  track_kind : TrackKind;
  track_enabled : bool;
  track_stopped : bool
}.

Record MediaStream := mkStream {
  stream_id : nat;
  stream_tracks : list MediaStreamTrack
}.

Global Instance TrackKind_eq_dec : EqDecision TrackKind.
Proof. solve_decision. Defined.

(** ** Session descriptions, candidates, errors *)

Inductive SdpType := SdpOffer | SdpAnswer.

(** What [createOffer]/[createAnswer] produce and what travels in the
    [offer]/[answer] field of a broadcast payload.  [sdp_tracks] counts the
    local tracks that were attached to the connection when it was made. *)
Record SessionDescription := mkSdp {
  sdp_type : SdpType;
  sdp_tracks : nat
}.

Definition Candidate := nat.

Inductive JsError := InvalidStateError | TypeError | NotAllowedError.

(** ** The media transport primitive: RTCPeerConnection

    The browser object is outside the repository.  Its model keeps what the
    manager can observe: the signalling state of the W3C state machine
    ([close()] moves it to [SigClosed]), the tracks added, the two
    descriptions and the candidates accepted.  [pc_remote] is the
    [remoteUserId] captured by the closures that [createPeerConnection]
    installs as [ontrack] and [onicecandidate]. *)

Inductive SignalingState :=
  SigStable | SigHaveLocalOffer | SigHaveRemoteOffer | SigClosed.

Global Instance SignalingState_eq_dec : EqDecision SignalingState.
Proof. solve_decision. Defined.

Record RTCPeerConnection := mkPC {
  pc_remote : string;
  pc_signaling : SignalingState;
  pc_senders : list nat;
  pc_localDescription : option SessionDescription;
  pc_remoteDescription : option SessionDescription;
  pc_candidates : list Candidate
}.

(** [new RTCPeerConnection(ICE_SERVERS)] *)
Definition new_pc (remote : string) : RTCPeerConnection :=
  mkPC remote SigStable [] None None [].

Definition pc_is_closed (c : RTCPeerConnection) : bool :=
  match pc_signaling c with
  | SigClosed => true
  | _ => false
  end.

Definition pc_set_signaling (s : SignalingState) (c : RTCPeerConnection) :=
  mkPC (pc_remote c) s (pc_senders c) (pc_localDescription c)
       (pc_remoteDescription c) (pc_candidates c).

(** [peerConnection.close()]: never throws, closing twice is allowed. *)
Definition pc_close (c : RTCPeerConnection) : RTCPeerConnection :=
  pc_set_signaling SigClosed c.

(** [peerConnection.addTrack(track, stream)]: the sender refers to the
    track (its index in the local stream), it does not copy it. *)
Definition pc_addTrack (i : nat) (c : RTCPeerConnection) : RTCPeerConnection :=
  mkPC (pc_remote c) (pc_signaling c) (pc_senders c ++ [i])
       (pc_localDescription c) (pc_remoteDescription c) (pc_candidates c).

Definition pc_createOffer (c : RTCPeerConnection) : JsError + SessionDescription :=
  if pc_is_closed c then inl InvalidStateError
  else inr (mkSdp SdpOffer (length (pc_senders c))).

Definition pc_createAnswer (c : RTCPeerConnection) : JsError + SessionDescription :=
  match pc_signaling c with
  | SigHaveRemoteOffer => inr (mkSdp SdpAnswer (length (pc_senders c)))
  | _ => inl InvalidStateError
  end.

Definition pc_setLocalDescription (d : SessionDescription) (c : RTCPeerConnection)
  : JsError + RTCPeerConnection :=
  match sdp_type d, pc_signaling c with
  | SdpOffer, (SigStable | SigHaveLocalOffer) =>
      inr (mkPC (pc_remote c) SigHaveLocalOffer (pc_senders c) (Some d)
                (pc_remoteDescription c) (pc_candidates c))
  | SdpAnswer, SigHaveRemoteOffer =>
      inr (mkPC (pc_remote c) SigStable (pc_senders c) (Some d)
                (pc_remoteDescription c) (pc_candidates c))
  | _, _ => inl InvalidStateError
  end.

Definition pc_setRemoteDescription (d : SessionDescription) (c : RTCPeerConnection)
  : JsError + RTCPeerConnection :=
  match sdp_type d, pc_signaling c with
  | SdpOffer, (SigStable | SigHaveRemoteOffer) =>
      inr (mkPC (pc_remote c) SigHaveRemoteOffer (pc_senders c)
                (pc_localDescription c) (Some d) (pc_candidates c))
  | SdpAnswer, SigHaveLocalOffer =>
      inr (mkPC (pc_remote c) SigStable (pc_senders c)
                (pc_localDescription c) (Some d) (pc_candidates c))
  | _, _ => inl InvalidStateError
  end.

(** [addIceCandidate] is rejected on a closed connection and while there is
    no remote description; the transport keeps no queue of its own. *)
Definition pc_addIceCandidate (k : Candidate) (c : RTCPeerConnection)
  : JsError + RTCPeerConnection :=
  if pc_is_closed c then inl InvalidStateError
  else match pc_remoteDescription c with
       | None => inl InvalidStateError
       | Some _ =>
           inr (mkPC (pc_remote c) (pc_signaling c) (pc_senders c)
                     (pc_localDescription c) (pc_remoteDescription c)
                     (pc_candidates c ++ [k]))
       end.

(** ** The relay channel, as far as the manager drives it *)

Record Channel := mkChannel {
  ch_subscribed : bool;
  ch_tracked : bool;
  ch_removed : bool
}.

(** ** Messages, presences, observable behaviour *)

Inductive MsgBody :=
| OfferBody (offer : SessionDescription)
| AnswerBody (answer : SessionDescription)
| CandidateBody (candidate : Candidate).

(** The payload [{from, to, offer|answer|candidate}] of a broadcast. *)
Record Payload := mkPayload {
  p_from : string;
  p_to : string;
  p_body : MsgBody
}.

Record Presence := mkPresence {
  pr_userId : string;
  pr_userName : string
}.

Inductive Output :=
| Send (p : Payload)                              (* this.channel.send({type: "broadcast", ...}) *)
| ParticipantJoined (userId userName : string)    (* this.onParticipantJoined?.(...) *)
| ParticipantLeft (userId : string)               (* this.onParticipantLeft?.(...) *)
| StreamAdded (userId : string) (stream : nat)    (* this.onStreamAdded?.(...) *)
| Unhandled (e : JsError).                        (* an exception or rejection nobody catches *)

(** ** Suspended async methods

    One constructor for every [await] that has code after it, carrying the
    local variables that code reads.  A transport operation is decided when
    it is called (its effect on the connection, or the error it will
    reject with); the promise settles, and the method goes on, when the
    task is resumed. *)

Inductive Task :=
| AfterCreateOffer (pc : nat) (remote : string) (offer : SessionDescription)
| AfterSetLocalOffer (remote : string) (offer : SessionDescription)
| AfterCreateResponder (remote : string) (offer : SessionDescription)
| AfterSetRemoteOffer (pc : nat) (remote : string)
| AfterCreateAnswer (pc : nat) (remote : string) (answer : SessionDescription)
| AfterSetLocalAnswer (remote : string) (answer : SessionDescription)
| AfterUntrack.

(** ** The manager and its surroundings *)

Record World := mkWorld {
  meetingId : string;
  userId : string;
  userName : string;
  localStream : option MediaStream;
  peers : gmap string nat;            (* Map<string, RTCPeerConnection>, by reference *)
  channel : option Channel;
  conns : list RTCPeerConnection;     (* every connection constructed so far *)
  pending : list Task;
  trace : list Output
}.

(** [new WebRTCManager(meetingId, userId, userName, callbacks)] *)
Definition construct (mid uid uname : string) : World :=
  mkWorld mid uid uname None ∅ None [] [] [].

Definition set_localStream (s : option MediaStream) (w : World) : World :=
  mkWorld (meetingId w) (userId w) (userName w) s (peers w) (channel w)
          (conns w) (pending w) (trace w).
Definition set_peers (m : gmap string nat) (w : World) : World :=
  mkWorld (meetingId w) (userId w) (userName w) (localStream w) m (channel w)
          (conns w) (pending w) (trace w).
Definition set_channel (c : option Channel) (w : World) : World :=
  mkWorld (meetingId w) (userId w) (userName w) (localStream w) (peers w) c
          (conns w) (pending w) (trace w).
Definition set_conns (l : list RTCPeerConnection) (w : World) : World :=
  mkWorld (meetingId w) (userId w) (userName w) (localStream w) (peers w)
          (channel w) l (pending w) (trace w).
Definition set_pending (l : list Task) (w : World) : World :=
  mkWorld (meetingId w) (userId w) (userName w) (localStream w) (peers w)
          (channel w) (conns w) l (trace w).
Definition emit (o : Output) (w : World) : World :=
  mkWorld (meetingId w) (userId w) (userName w) (localStream w) (peers w)
          (channel w) (conns w) (pending w) (trace w ++ [o]).
Definition suspend (t : Task) (w : World) : World :=
  set_pending (pending w ++ [t]) w.

(** Apply a transport operation to connection [i]: the connection is
    updated when the operation succeeds; a failure is the rejection the
    awaiting method receives. *)
Definition with_pc (i : nat) (op : RTCPeerConnection → JsError + RTCPeerConnection)
  (w : World) : JsError + World :=
  match conns w !! i with
  | None => inl TypeError
  | Some c =>
      match op c with
      | inl e => inl e
      | inr c' => inr (set_conns (<[i:=c']> (conns w)) w)
      end
  end.

(** ** Methods of [WebRTCManager] *)

Definition peers_has (u : string) (w : World) : bool :=
  bool_decide (is_Some (peers w !! u)).

(** [this.channel.send({type: "broadcast", event, payload})]; [channel] is
    declared [any] and is undefined until [initialize] has created it. *)
Definition channel_send (p : Payload) (w : World) : World :=
  match channel w with
  | None => emit (Unhandled TypeError) w
  | Some _ => emit (Send p) w
  end.

(** The indices of [this.localStream.getTracks()], nothing when there is
    no local stream. *)
Definition local_tracks (w : World) : list nat :=
  match localStream w with
  | None => []
  | Some s => seq 0 (length (stream_tracks s))
  end.

(** [createPeerConnection(remoteUserId, isInitiator)] up to its first
    [await]: construct the connection, store it under [remoteUserId]
    (whatever was stored there before), attach the local tracks, install
    the handlers, and for an initiator ask the transport for an offer. *)
Definition createPeerConnection (remote : string) (isInitiator : bool) (w : World)
  : World :=
  let i := length (conns w) in
  let c := foldl (λ c t, pc_addTrack t c) (new_pc remote) (local_tracks w) in
  let w1 := set_peers (<[remote:=i]> (peers w)) (set_conns (conns w ++ [c]) w) in
  if isInitiator then
    match pc_createOffer c with
    | inl e => emit (Unhandled e) w1
    | inr offer => suspend (AfterCreateOffer i remote offer) w1
    end
  else w1.

(** [handleOffer] from [if (peerConnection)] on, with [peerConnection]
    read from the map. *)
Definition handleOffer_apply (remote : string) (offer : SessionDescription)
  (w : World) : World :=
  match peers w !! remote with
  | None => w
  | Some i =>
      match with_pc i (pc_setRemoteDescription offer) w with
      | inl e => emit (Unhandled e) w
      | inr w' => suspend (AfterSetRemoteOffer i remote) w'
      end
  end.

(** [handleOffer(remoteUserId, offer)] up to its first [await]. *)
Definition handleOffer (remote : string) (offer : SessionDescription) (w : World)
  : World :=
  match peers w !! remote with
  | None => suspend (AfterCreateResponder remote offer)
                    (createPeerConnection remote false w)
  | Some _ => handleOffer_apply remote offer w
  end.

(** [handleAnswer(remoteUserId, answer)] *)
Definition handleAnswer (remote : string) (answer : SessionDescription) (w : World)
  : World :=
  match peers w !! remote with
  | None => w
  | Some i =>
      match with_pc i (pc_setRemoteDescription answer) w with
      | inl e => emit (Unhandled e) w
      | inr w' => w'
      end
  end.

(** [handleIceCandidate(remoteUserId, candidate)] *)
Definition handleIceCandidate (remote : string) (k : Candidate) (w : World)
  : World :=
  match peers w !! remote with
  | None => w
  | Some i =>
      match with_pc i (pc_addIceCandidate k) w with
      | inl e => emit (Unhandled e) w
      | inr w' => w'
      end
  end.

(** [removePeer(userId)] *)
Definition removePeer (u : string) (w : World) : World :=
  match peers w !! u with
  | None => w
  | Some i =>
      set_peers (delete u (peers w)) (set_conns (alter pc_close i (conns w)) w)
  end.

Definition set_enabled (k : TrackKind) (enabled : bool) (t : MediaStreamTrack)
  : MediaStreamTrack :=
  if decide (track_kind t = k)
  then mkTrack (track_kind t) enabled (track_stopped t)
  else t.

Definition toggle_kind (k : TrackKind) (enabled : bool) (w : World) : World :=
  match localStream w with
  | None => w
  | Some s =>
      set_localStream
        (Some (mkStream (stream_id s) (set_enabled k enabled <$> stream_tracks s))) w
  end.

(** [toggleVideo(enabled)] and [toggleAudio(enabled)] *)
Definition toggleVideo (enabled : bool) (w : World) : World :=
  toggle_kind VideoTrack enabled w.
Definition toggleAudio (enabled : bool) (w : World) : World :=
  toggle_kind AudioTrack enabled w.

Definition stop_track (t : MediaStreamTrack) : MediaStreamTrack :=
  mkTrack (track_kind t) (track_enabled t) true.

Definition stop_local_tracks (w : World) : World :=
  match localStream w with
  | None => w
  | Some s =>
      set_localStream
        (Some (mkStream (stream_id s) (stop_track <$> stream_tracks s))) w
  end.

(** [this.peers.forEach((pc) => pc.close())] *)
Definition close_each (ids : list nat) (cs : list RTCPeerConnection)
  : list RTCPeerConnection :=
  foldr (alter pc_close) cs ids.

Definition close_all_peers (w : World) : World :=
  set_conns (close_each (map_to_list (peers w)).*2 (conns w)) w.

(** [cleanup()] up to [await this.channel.untrack()] *)
Definition cleanup (w : World) : World :=
  let w1 := stop_local_tracks w in
  let w2 := set_peers ∅ (close_all_peers w1) in
  match channel w2 with
  | None => w2
  | Some ch =>
      suspend AfterUntrack
        (set_channel (Some (mkChannel (ch_subscribed ch) false (ch_removed ch))) w2)
  end.

(** [supabase.removeChannel(this.channel)] *)
Definition removeChannel (w : World) : World :=
  match channel w with
  | None => w
  | Some _ => set_channel (Some (mkChannel false false true)) w
  end.

(** [initialize()]: [media] is what [getUserMedia] settles with, an error
    when its promise is rejected (permission denied, no device).  The
    first component is what the promise returned by [initialize] settles
    with: a rejection of the first [await] leaves the method at once. *)
Definition initialize (media : JsError + MediaStream) (w : World)
  : (JsError + MediaStream) * World :=
  match media with
  | inl e => (inl e, w)
  | inr s =>
      (inr s, set_channel (Some (mkChannel false false false))
                (set_localStream (Some s) w))
  end.

(** The callback handed to [channel.subscribe]: announce presence once the
    status is [SUBSCRIBED]. *)
Definition on_subscribe_status (subscribed : bool) (w : World) : World :=
  match channel w with
  | Some ch =>
      if subscribed
      then set_channel (Some (mkChannel true true (ch_removed ch))) w
      else w
  | None => w
  end.

(** ** Continuations of the async methods *)

Definition resume_task (t : Task) (w : World) : World :=
  match t with
  | AfterCreateOffer i remote offer =>
      match with_pc i (pc_setLocalDescription offer) w with
      | inl e => emit (Unhandled e) w
      | inr w' => suspend (AfterSetLocalOffer remote offer) w'
      end
  | AfterSetLocalOffer remote offer =>
      channel_send (mkPayload (userId w) remote (OfferBody offer)) w
  | AfterCreateResponder remote offer => handleOffer_apply remote offer w
  | AfterSetRemoteOffer i remote =>
      match conns w !! i with
      | None => emit (Unhandled TypeError) w
      | Some c =>
          match pc_createAnswer c with
          | inl e => emit (Unhandled e) w
          | inr answer => suspend (AfterCreateAnswer i remote answer) w
          end
      end
  | AfterCreateAnswer i remote answer =>
      match with_pc i (pc_setLocalDescription answer) w with
      | inl e => emit (Unhandled e) w
      | inr w' => suspend (AfterSetLocalAnswer remote answer) w'
      end
  | AfterSetLocalAnswer remote answer =>
      channel_send (mkPayload (userId w) remote (AnswerBody answer)) w
  | AfterUntrack => removeChannel w
  end.

(** ** Handlers registered in [initialize] *)

(** The [sync] handler: [Object.keys(state).forEach(...)], reading
    [state[key][0]]. *)
Fixpoint on_sync (state : list (string * list Presence)) (w : World) : World :=
  match state with
  | [] => w
  | (_, []) :: _ => emit (Unhandled TypeError) w
  | (_, presence :: _) :: rest =>
      on_sync rest
        (if bool_decide (pr_userId presence ≠ userId w)
            && negb (peers_has (pr_userId presence) w)
         then emit (ParticipantJoined (pr_userId presence) (pr_userName presence)) w
         else w)
  end.

(** The [join] handler *)
Fixpoint on_join (newPresences : list Presence) (w : World) : World :=
  match newPresences with
  | [] => w
  | presence :: rest =>
      on_join rest
        (if bool_decide (pr_userId presence ≠ userId w)
         then createPeerConnection (pr_userId presence) true w
         else w)
  end.

(** The [leave] handler *)
Fixpoint on_leave (leftPresences : list Presence) (w : World) : World :=
  match leftPresences with
  | [] => w
  | presence :: rest =>
      on_leave rest
        (emit (ParticipantLeft (pr_userId presence))
              (removePeer (pr_userId presence) w))
  end.

(** The three [broadcast] handlers: the event name goes with the field
    the payload carries. *)
Definition on_broadcast (p : Payload) (w : World) : World :=
  if bool_decide (p_to p = userId w) then
    match p_body p with
    | OfferBody offer => handleOffer (p_from p) offer w
    | AnswerBody answer => handleAnswer (p_from p) answer w
    | CandidateBody k => handleIceCandidate (p_from p) k w
    end
  else w.

(** [peerConnection.onicecandidate], a closure over [remoteUserId] *)
Definition on_icecandidate (remote : string) (candidate : option Candidate)
  (w : World) : World :=
  match candidate with
  | None => w
  | Some k => channel_send (mkPayload (userId w) remote (CandidateBody k)) w
  end.

(** [peerConnection.ontrack], a closure over [remoteUserId] *)
Definition on_track (remote : string) (streams : list nat) (w : World) : World :=
  match streams with
  | [] => w
  | s :: _ => emit (StreamAdded remote s) w
  end.

(** ** One turn of the event loop *)

Inductive Event :=
| CallInitialize (media : JsError + MediaStream)
| SubscribeStatus (subscribed : bool)
| PresenceSync (state : list (string * list Presence))
| PresenceJoin (newPresences : list Presence)
| PresenceLeave (leftPresences : list Presence)
| Broadcast (p : Payload)
| IceCandidateFound (pc : nat) (candidate : option Candidate)
| TrackReceived (pc : nat) (streams : list nat)
| Resume (n : nat)
| CallToggleVideo (enabled : bool)
| CallToggleAudio (enabled : bool)
| CallCleanup.

(** Channel handlers exist once [initialize] has created the channel and
    registered them; connection handlers exist for constructed
    connections; only a suspended task can be resumed. *)
Definition on_channel (h : World → World) (w : World) : World :=
  match channel w with
  | None => w
  | Some _ => h w
  end.

Definition step (e : Event) (w : World) : World :=
  match e with
  | CallInitialize media => (initialize media w).2
  | SubscribeStatus b => on_channel (on_subscribe_status b) w
  | PresenceSync state => on_channel (on_sync state) w
  | PresenceJoin ps => on_channel (on_join ps) w
  | PresenceLeave ps => on_channel (on_leave ps) w
  | Broadcast p => on_channel (on_broadcast p) w
  | IceCandidateFound i k =>
      match conns w !! i with
      | None => w
      | Some c => on_icecandidate (pc_remote c) k w
      end
  | TrackReceived i streams =>
      match conns w !! i with
      | None => w
      | Some c => on_track (pc_remote c) streams w
      end
  | Resume n =>
      match pending w !! n with
      | None => w
      | Some t => resume_task t (set_pending (delete n (pending w)) w)
      end
  | CallToggleVideo b => toggleVideo b w
  | CallToggleAudio b => toggleAudio b w
  | CallCleanup => cleanup w
  end.

Definition run (es : list Event) (w : World) : World :=
  foldl (λ w e, step e w) w es.

(** Let every suspended method run to its end, oldest first: the schedule
    in which no other event arrives while a method is awaiting. *)
Fixpoint settle (fuel : nat) (w : World) : World :=
  match fuel with
  | 0 => w
  | S fuel' =>
      match pending w with
      | [] => w
      | _ :: _ => settle fuel' (step (Resume 0) w)
      end
  end.

(** ** Views of a world used in the statements *)

(** The connections towards [u] that were constructed and never closed. *)
Definition open_links (u : string) (w : World) : list RTCPeerConnection :=
  filter (λ c, pc_remote c = u ∧ pc_signaling c ≠ SigClosed) (conns w).

(** The connection the manager currently holds for [u]. *)
Definition link (u : string) (w : World) : option RTCPeerConnection :=
  peers w !! u ≫= λ i, conns w !! i.

Definition notified_join (o : Output) : option string :=
  match o with ParticipantJoined u _ => Some u | _ => None end.
Definition sent (o : Output) : option Payload :=
  match o with Send p => Some p | _ => None end.
Definition raised (o : Output) : option JsError :=
  match o with Unhandled e => Some e | _ => None end.
Definition is_offer (p : Payload) : bool :=
  match p_body p with OfferBody _ => true | _ => false end.

(** The users for whom [onParticipantJoined] was called, in order. *)
Definition joined_calls (w : World) : list string := omap notified_join (trace w).
(** What was broadcast, in order. *)
Definition sends (w : World) : list Payload := omap sent (trace w).
Definition offers_sent (w : World) : list Payload := filter is_offer (sends w).
Definition errors (w : World) : list JsError := omap raised (trace w).

(** [cleanup()] with both of its awaits settled: the task it suspends is
    the last one in [pending]. *)
Definition cleanup_completed (w : World) : World :=
  step (Resume (length (pending w))) (cleanup w).

(** [localStream] after every track was stopped, and the channel after
    [removeChannel]. *)
Definition stop_stream (s : MediaStream) : MediaStream :=
  mkStream (stream_id s) (stop_track <$> stream_tracks s).
Definition removed_channel (_ : Channel) : Channel := mkChannel false false true.
Definition untracked (ch : Channel) : Channel :=
  mkChannel (ch_subscribed ch) false (ch_removed ch).

(** [this.localStream.getTracks()] *)
Definition local_stream_tracks (w : World) : list MediaStreamTrack :=
  default [] (stream_tracks <$> localStream w).

(** Everything of a world except the local media. *)
Definition same_signalling (w w' : World) : Prop :=
  peers w' = peers w ∧ conns w' = conns w ∧ channel w' = channel w
  ∧ pending w' = pending w ∧ trace w' = trace w.

(** Every peers entry refers to a constructed connection towards that very
    user which has not been closed. *)
Definition links_wf (w : World) : Prop :=
  ∀ u i, peers w !! u = Some i →
    ∃ c, conns w !! i = Some c ∧ pc_remote c = u ∧ pc_signaling c ≠ SigClosed.

Definition reachable (w : World) : Prop :=
  ∃ mid uid uname es, w = run es (construct mid uid uname).

(** ** A meeting: several managers on one relay

    The relay is an external collaborator.  Its broadcast side hands every
    message published by one subscriber to every other subscriber, whoever
    it is addressed to.  Its presence side follows the join ordering of the
    specification: a participant who enters receives a [sync] snapshot of
    everybody tracked so far (a [join] only for its own record), the ones
    already there receive a [join] for the newcomer and then a [sync]. *)

(** A handler and the async methods it starts, with no other event in
    between: each suspended method awaits at most four times. *)
Definition run_to_completion (w : World) : World :=
  settle (4 * length (pending w)) w.

Definition sends_since (n : nat) (w : World) : list Payload :=
  omap sent (drop n (trace w)).

Definition handle_at (i : nat) (e : Event) (r : list World)
  : list World * list Payload :=
  match r !! i with
  | None => (r, [])
  | Some w =>
      let w' := run_to_completion (step e w) in
      (<[i:=w']> r, sends_since (length (trace w)) w')
  end.

Definition fanout (i n : nat) (ps : list Payload) : list (nat * Event) :=
  p ← ps; j ← seq 0 n; if Nat.eqb j i then [] else [(j, Broadcast p)].

(** Deliver queued events in order; what a manager broadcasts while
    handling one is queued behind them for the others.  Returns the room
    and what is still undelivered when the fuel ends. *)
Fixpoint pump (fuel : nat) (queue : list (nat * Event)) (r : list World)
  : list World * list (nat * Event) :=
  match fuel, queue with
  | S fuel', (i, e) :: rest =>
      let '(r', ps) := handle_at i e r in
      pump fuel' (rest ++ fanout i (length r) ps) r'
  | _, _ => (r, queue)
  end.

Definition presence (w : World) : Presence :=
  mkPresence (userId w) (userName w).

Definition presence_state (r : list World) (present : list nat)
  : list (string * list Presence) :=
  omap (λ i, (λ w, (userId w, [presence w])) <$> r !! i) present.

(** Participant [i] opens the meeting view while [present] are tracked. *)
Definition enter (media : MediaStream) (r : list World) (present : list nat)
  (i : nat) : list (nat * Event) :=
  match r !! i with
  | None => []
  | Some w =>
      let snapshot := presence_state r (present ++ [i]) in
      [(i, CallInitialize (inr media)); (i, SubscribeStatus true);
       (i, PresenceJoin [presence w]); (i, PresenceSync snapshot)]
      ++ (j ← present; [(j, PresenceJoin [presence w]); (j, PresenceSync snapshot)])
  end.

(** Two participants open the same meeting, [a] first and then [b]; the
    relay runs until nothing is left to deliver. *)
Definition two_join (mid a aname b bname : string) (ma mb : MediaStream)
  : list World * list (nat * Event) :=
  let r := [construct mid a aname; construct mid b bname] in
  pump 16 (enter ma r [] 0 ++ enter mb r [0] 1) r.

(** ** Definitions used by the scenarios *)

(** The connection [createPeerConnection] constructs. *)
Definition fresh_pc (remote : string) (w : World) : RTCPeerConnection :=
  foldl (λ c t, pc_addTrack t c) (new_pc remote) (local_tracks w).

(** Transport operations that neither rename nor close a connection. *)
Definition keeps_link (op : RTCPeerConnection → JsError + RTCPeerConnection) : Prop :=
  ∀ c c', op c = inr c' →
    pc_remote c' = pc_remote c
    ∧ (pc_signaling c ≠ SigClosed → pc_signaling c' ≠ SigClosed).

Definition joined_channel : Channel := mkChannel true true false.
Definition track_ids (m : MediaStream) : list nat := seq 0 (length (stream_tracks m)).
Definition offer_of (m : MediaStream) : SessionDescription :=
  mkSdp SdpOffer (length (track_ids m)).
Definition answer_of (m : MediaStream) : SessionDescription :=
  mkSdp SdpAnswer (length (track_ids m)).

(** The manager of the participant who was there first, [a], and of the
    one who came second, [b], when the relay has nothing left to deliver. *)
Definition first_after (mid a aname b : string) (ma mb : MediaStream) : World :=
  mkWorld mid a aname (Some ma) (<[b:=0]> ∅) (Some joined_channel)
    [mkPC b SigStable (track_ids ma) (Some (offer_of ma)) (Some (answer_of mb)) []]
    [] [Send (mkPayload a b (OfferBody (offer_of ma)))].

Definition second_after (mid a aname b bname : string) (ma mb : MediaStream) : World :=
  mkWorld mid b bname (Some mb) (<[a:=0]> ∅) (Some joined_channel)
    [mkPC a SigStable (track_ids mb) (Some (answer_of mb)) (Some (offer_of ma)) []]
    [] [ParticipantJoined a aname;
        Send (mkPayload b a (AnswerBody (answer_of mb)))].

(** ** The meeting view that consumes the callbacks

    The page that owns the manager keeps the roster it renders in a map
    that only the three callbacks write. *)

Record Participant := mkParticipant {
  part_userId : string;
  part_userName : string;
  part_stream : option nat
}.

Definition ui_callback (roster : gmap string Participant) (o : Output)
  : gmap string Participant :=
  match o with
  | ParticipantJoined u n => <[u:=mkParticipant u n None]> roster
  | ParticipantLeft u => delete u roster
  | StreamAdded u s =>
      match roster !! u with
      | Some p => <[u:=mkParticipant (part_userId p) (part_userName p) (Some s)]> roster
      | None => roster
      end
  | _ => roster
  end.

(** The roster shown after the manager has behaved as in [tr]. *)
Definition roster_of (tr : list Output) : gmap string Participant :=
  foldl ui_callback ∅ tr.

(** ** Concrete sessions *)

Definition camera (n : nat) : MediaStream :=
  mkStream n [mkTrack AudioTrack true false; mkTrack VideoTrack true false].

Definition alice : string := "alice"%string.
Definition bob : string := "bob"%string.
Definition carol : string := "carol"%string.
Definition standup : string := "standup"%string.

(** Alice has opened the meeting view and is subscribed. *)
Definition alice_ready : World :=
  run [CallInitialize (inr (camera 1)); SubscribeStatus true]
      (construct standup alice "Alice").

(** Bob has joined after her; her offer to him is out. *)
Definition alice_offered : World :=
  run [CallInitialize (inr (camera 1)); SubscribeStatus true;
       PresenceJoin [mkPresence bob "Bob"]; Resume 0; Resume 0]
      (construct standup alice "Alice").

(** Bob has received that offer and answered it. *)
Definition bob_answered : World :=
  run [CallInitialize (inr (camera 2)); SubscribeStatus true;
       Broadcast (mkPayload alice bob (OfferBody (offer_of (camera 1))));
       Resume 0; Resume 0; Resume 0; Resume 0]
      (construct standup bob "Bob").

(** Bob has joined after her; [createPeerConnection] is awaiting
    [createOffer]. *)
Definition alice_joining : World :=
  run [CallInitialize (inr (camera 1)); SubscribeStatus true;
       PresenceJoin [mkPresence bob "Bob"]]
      (construct standup alice "Alice").

(** One await further: [setLocalDescription] is pending, the offer is not
    sent yet. *)
Definition alice_offering : World :=
  run [CallInitialize (inr (camera 1)); SubscribeStatus true;
       PresenceJoin [mkPresence bob "Bob"]; Resume 0]
      (construct standup alice "Alice").

(** Bob has received alice's offer, and his [handleOffer] has gone through
    [n] of its four awaits: the responder link, [setRemoteDescription],
    [createAnswer], [setLocalDescription]. *)
Definition bob_in_handleOffer (n : nat) : World :=
  run ([CallInitialize (inr (camera 2)); SubscribeStatus true;
        Broadcast (mkPayload alice bob (OfferBody (offer_of (camera 1))))]
       ++ replicate n (Resume 0))
      (construct standup bob "Bob").

(** ** The claims as the specification words them, where the code differs *)

(** The newcomer [b] sends the one offer of the pair, to [a], and both
    links reach stable. *)
Definition newcomer_offers (r : list World * list (nat * Event)) (a b : string)
  : Prop :=
  ∃ wa wb, r.1 = [wa; wb]
    ∧ offers_sent wa = []
    ∧ (∃ d, offers_sent wb = [mkPayload b a (OfferBody d)])
    ∧ (∃ ca, link b wa = Some ca ∧ pc_signaling ca = SigStable)
    ∧ (∃ cb, link a wb = Some cb ∧ pc_signaling cb = SigStable).


(** Nothing of [w] that can be observed has changed in [w']: the same
    links, connections, channel and local media, and nothing was added to
    the trace (no message, no callback, no error).  Only the list of
    suspended methods may differ. *)
Definition nothing_observable (w w' : World) : Prop :=
  peers w' = peers w ∧ conns w' = conns w ∧ channel w' = channel w
  ∧ localStream w' = localStream w ∧ trace w' = trace w.

(** What happens after [cleanup()] has completed, be it a method that was
    suspended when [cleanup()] was called and goes on now, or a message
    that is handled late, changes nothing that can be observed. *)
Definition stale_callback_ignored (w : World) (e : Event) : Prop :=
  nothing_observable (cleanup_completed w) (step e (cleanup_completed w)).

(** How many awaits a suspended method can still go through, itself
    included. *)
Definition awaits_left (t : Task) : nat :=
  match t with
  | AfterCreateOffer _ _ _ => 2
  | AfterSetLocalOffer _ _ => 1
  | AfterCreateResponder _ _ => 4
  | AfterSetRemoteOffer _ _ => 3
  | AfterCreateAnswer _ _ _ => 2
  | AfterSetLocalAnswer _ _ => 1
  | AfterUntrack => 1
  end.

(** ** Further views of a world *)

(** The users the connections were constructed for, in construction
    order. *)
Definition remotes (w : World) : list string := pc_remote <$> conns w.

(** The user a suspended method will address its message to. *)
Definition task_remote (t : Task) : option string :=
  match t with
  | AfterCreateOffer _ r _ | AfterSetLocalOffer r _ | AfterCreateResponder r _
  | AfterSetRemoteOffer _ r | AfterCreateAnswer _ r _ | AfterSetLocalAnswer r _ =>
      Some r
  | AfterUntrack => None
  end.

(** Every broadcast made so far is signed with the local user id and
    addressed to a user a connection was constructed for, and so will be
    the ones the suspended methods are about to make. *)
Definition sends_wf (w : World) : Prop :=
  (∀ p, p ∈ sends w → p_from p = userId w ∧ p_to p ∈ remotes w)
  ∧ (∀ t r, t ∈ pending w → task_remote t = Some r → r ∈ remotes w).

(** The presences the sync handler reads: [state[key][0]] for every key. *)
Definition first_presences (state : list (string * list Presence)) : list Presence :=
  omap (λ kv, head kv.2) state.

(** The remote users among the ids of [ps], as the join handler filters
    them. *)
Definition remote_ids (self : string) (ps : list Presence) : list string :=
  filter (λ u, u ≠ self) (pr_userId <$> ps).

(** What a callback call says about the membership of [u], if anything. *)
Definition membership (u : string) (o : Output) : option bool :=
  match o with
  | ParticipantJoined v _ => if decide (v = u) then Some true else None
  | ParticipantLeft v => if decide (v = u) then Some false else None
  | _ => None
  end.

(** Whether the last call about [u] in [tr] was [onParticipantJoined]. *)
Definition last_joined (u : string) (tr : list Output) : bool :=
  default false (last (omap (membership u) tr)).

(** ** The buttons of the meeting page

    [isVideoOn] and [isAudioOn] are the page's state behind the two
    buttons; [webrtcManagerRef] is set once [initialize] has returned. *)

Record Page := mkPage {
  isVideoOn : bool;
  isAudioOn : bool;
  webrtcManagerRef : option World
}.

(** The page's [toggleVideo] and [toggleAudio] click handlers. *)
Definition page_toggleVideo (pg : Page) : Page :=
  match webrtcManagerRef pg with
  | None => pg
  | Some m =>
      let newState := negb (isVideoOn pg) in
      mkPage newState (isAudioOn pg) (Some (toggleVideo newState m))
  end.

Definition page_toggleAudio (pg : Page) : Page :=
  match webrtcManagerRef pg with
  | None => pg
  | Some m =>
      let newState := negb (isAudioOn pg) in
      mkPage (isVideoOn pg) newState (Some (toggleAudio newState m))
  end.

(** The [enabled] flags of the local tracks of one kind. *)
Definition flags_of (k : TrackKind) (w : World) : list bool :=
  track_enabled <$> filter (λ t, track_kind t = k) (local_stream_tracks w).

(** The events whose handler calls [createPeerConnection]: a presence
    join and a broadcast offer. *)
Definition constructs_links (e : Event) : bool :=
  match e with
  | PresenceJoin _ => true
  | Broadcast p => is_offer p
  | _ => false
  end.

(** No connection was constructed and no user was added to the map. *)
Definition no_new_link (w w' : World) : Prop :=
  length (conns w') = length (conns w) ∧ dom (peers w') ⊆ dom (peers w).

(** Whom the sync handler notifies: not self, not somebody in the map. *)
Definition unlinked_remote (self : string) (m : gmap string nat) (p : Presence) : Prop :=
  pr_userId p ≠ self ∧ m !! pr_userId p = None.

Global Instance unlinked_remote_dec self m p : Decision (unlinked_remote self m p).
Proof. unfold unlinked_remote. apply _. Defined.

Definition joined_call (p : Presence) : Output :=
  ParticipantJoined (pr_userId p) (pr_userName p).

(** Connection [i] was constructed for [r], is open, and the peers map
    does not refer to it. *)
Definition orphan (i : nat) (r : string) (w : World) : Prop :=
  (∃ c, conns w !! i = Some c ∧ pc_remote c = r ∧ pc_signaling c ≠ SigClosed)
  ∧ ∀ u, peers w !! u ≠ Some i.

(** The methods are unfolded by name in the proofs, not by [simpl]. *)
Global Arguments createPeerConnection : simpl never.
Global Arguments handleOffer : simpl never.
Global Arguments handleOffer_apply : simpl never.
Global Arguments handleAnswer : simpl never.
Global Arguments handleIceCandidate : simpl never.
Global Arguments removePeer : simpl never.
Global Arguments cleanup : simpl never.
Global Arguments channel_send : simpl never.
Global Arguments with_pc : simpl never.

(** * Properties *)

(** ** Projections through the small updates *)

Lemma channel_send_frame p w :
  peers (channel_send p w) = peers w ∧ conns (channel_send p w) = conns w
  ∧ channel (channel_send p w) = channel w
  ∧ localStream (channel_send p w) = localStream w
  ∧ userId (channel_send p w) = userId w
  ∧ pending (channel_send p w) = pending w.
Proof. unfold channel_send. by destruct (channel w) eqn:E. Qed.

Lemma with_pc_frame i op w w' :
  with_pc i op w = inr w' →
  peers w' = peers w ∧ channel w' = channel w ∧ localStream w' = localStream w
  ∧ userId w' = userId w ∧ pending w' = pending w ∧ trace w' = trace w
  ∧ ∃ c c', conns w !! i = Some c ∧ op c = inr c' ∧ conns w' = <[i:=c']> (conns w).
Proof.
  unfold with_pc. destruct (conns w !! i) as [c|] eqn:Hc; [|done].
  destruct (op c) as [e|c'] eqn:Hop; [done|].
  intros [= <-]. repeat split; eauto.
Qed.

Lemma on_channel_none h w : channel w = None → on_channel h w = w.
Proof. unfold on_channel. by intros ->. Qed.

Lemma on_channel_some h w ch : channel w = Some ch → on_channel h w = h w.
Proof. unfold on_channel. by intros ->. Qed.

(** ** Closing and leaving *)


Lemma pc_close_idem c : pc_close (pc_close c) = pc_close c.
Proof. done. Qed.

Lemma pc_close_closed c : pc_is_closed (pc_close c) = true.
Proof. done. Qed.

Lemma removePeer_idem u w : removePeer u (removePeer u w) = removePeer u w.
Proof.
  unfold removePeer at 2 3. destruct (peers w !! u) as [i|] eqn:Hu.
  - unfold removePeer. simpl. by rewrite lookup_delete_eq.
  - unfold removePeer. by rewrite Hu.
Qed.

Lemma stop_track_idem t : stop_track (stop_track t) = stop_track t.
Proof. done. Qed.

(** Resuming the task at a known place of [pending]. *)
Lemma resume_at w pd1 t pd2 :
  pending w = pd1 ++ t :: pd2 →
  step (Resume (length pd1)) w = resume_task t (set_pending (pd1 ++ pd2) w).
Proof.
  intros Hpd. cbn [step]. rewrite Hpd, list_lookup_middle by done.
  by rewrite delete_middle.
Qed.

Lemma resume_nothing w n : pending w !! n = None → step (Resume n) w = w.
Proof. intros Hn. cbn [step]. by rewrite Hn. Qed.

Lemma cleanup_eq w :
  cleanup w =
  mkWorld (meetingId w) (userId w) (userName w) (stop_stream <$> localStream w)
          ∅ (untracked <$> channel w)
          (close_each (map_to_list (peers w)).*2 (conns w))
          (pending w ++ match channel w with Some _ => [AfterUntrack] | None => [] end)
          (trace w).
Proof.
  destruct w as [mid uid un ls ps ch cs pd tr].
  unfold cleanup, stop_local_tracks, close_all_peers.
  destruct ls as [s|], ch as [c|]; cbn; by rewrite ?app_nil_r.
Qed.

(** What a completed [cleanup()] leaves behind, field by field. *)
Lemma cleanup_completed_eq w :
  cleanup_completed w =
  mkWorld (meetingId w) (userId w) (userName w) (stop_stream <$> localStream w)
          ∅ (removed_channel <$> channel w)
          (close_each (map_to_list (peers w)).*2 (conns w))
          (pending w) (trace w).
Proof.
  destruct w as [mid uid un ls ps ch cs pd tr].
  unfold cleanup_completed, cleanup, stop_local_tracks, close_all_peers.
  destruct ls as [s|], ch as [c|]; simpl;
    unfold suspend; simpl;
    rewrite ?list_lookup_middle, ?lookup_ge_None_2 by (simpl; lia); simpl;
    rewrite ?(delete_middle pd []), ?app_nil_r; done.
Qed.

Lemma stop_stream_idem s : stop_stream (stop_stream s) = stop_stream s.
Proof.
  unfold stop_stream. simpl. f_equal.
  rewrite <- list_fmap_compose. by apply list_fmap_ext.
Qed.

(** ** Addressing *)

Lemma broadcast_for_self_dispatches w p ch :
  channel w = Some ch → p_to p = userId w →
  step (Broadcast p) w =
  match p_body p with
  | OfferBody offer => handleOffer (p_from p) offer w
  | AnswerBody answer => handleAnswer (p_from p) answer w
  | CandidateBody k => handleIceCandidate (p_from p) k w
  end.
Proof.
  intros Hch Hto. unfold step, on_channel, on_broadcast.
  rewrite Hch. by rewrite bool_decide_eq_true_2.
Qed.

(** C6: a broadcast offer, answer or ice-candidate whose [to] field is not
    the local user id is ignored by the handler that receives it: nothing
    in the manager, its connections or its trace changes, so nothing is
    raised either.  A message addressed to X therefore never reaches the
    methods of a manager of Y ≠ X. *)
Theorem broadcast_for_other_recipient_ignored (w : World) (p : Payload) :
  p_to p ≠ userId w → step (Broadcast p) w = w.
Proof.
  intros Hto. unfold step, on_channel, on_broadcast.
  destruct (channel w); [|done]. by rewrite bool_decide_eq_false_2.
Qed.

Lemma answer_or_candidate_noop_aux w from to d k :
  peers w !! from = None →
  step (Broadcast (mkPayload from to (AnswerBody d))) w = w
  ∧ step (Broadcast (mkPayload from to (CandidateBody k))) w = w.
Proof.
  intros Hnone. unfold step, on_channel, on_broadcast. simpl.
  destruct (channel w); [|done].
  destruct (bool_decide (to = userId w)); [|done].
  unfold handleAnswer, handleIceCandidate. by rewrite Hnone.
Qed.

(** C10: an answer or an ICE candidate from a sender for whom the peers
    map has no entry changes nothing: peers, connections, suspended tasks
    and trace (hence no error) are as before. *)
Theorem answer_or_candidate_without_link_is_noop
  (w : World) (from to : string) (d : SessionDescription) (k : Candidate) :
  peers w !! from = None →
  step (Broadcast (mkPayload from to (AnswerBody d))) w = w
  ∧ step (Broadcast (mkPayload from to (CandidateBody k))) w = w.
Proof. apply answer_or_candidate_noop_aux. Qed.

(** The contrast: an offer from such a sender, addressed to self, makes the
    manager construct a responder link. *)
Lemma offer_without_link_creates_responder w from d ch :
  channel w = Some ch → peers w !! from = None →
  let w' := step (Broadcast (mkPayload from (userId w) (OfferBody d))) w in
  peers w' !! from = Some (length (conns w))
  ∧ length (conns w') = S (length (conns w))
  ∧ pending w' = pending w ++ [AfterCreateResponder from d].
Proof.
  intros Hch Hnone. simpl. unfold on_channel, on_broadcast. rewrite Hch. simpl.
  rewrite bool_decide_eq_true_2 by done.
  unfold handleOffer. rewrite Hnone. unfold createPeerConnection. simpl.
  rewrite lookup_insert_eq, length_app. simpl. split; [done|]. split; [lia|done].
Qed.

(** C8: when [getUserMedia] is rejected, [initialize] is rejected with the
    same error and has done nothing else: the manager is unchanged, in a
    fresh manager no channel exists (so nothing is subscribed and no
    presence tracked), nothing has been sent, and no channel handler is
    registered that a later relay event could reach. *)
Theorem media_failure_is_fatal (e : JsError) (mid uid uname : string) :
  let w := construct mid uid uname in
  initialize (inl e) w = (inl e, w)
  ∧ channel (initialize (inl e) w).2 = None
  ∧ trace (initialize (inl e) w).2 = []
  ∧ (∀ ev, match ev with
           | SubscribeStatus _ | PresenceSync _ | PresenceJoin _
           | PresenceLeave _ | Broadcast _ =>
               step ev (initialize (inl e) w).2 = (initialize (inl e) w).2
           | _ => True
           end).
Proof.
  simpl. repeat split; try done. by intros [].
Qed.

(** The same for a manager in any state. *)
Lemma initialize_rejected_unchanged e w : initialize (inl e) w = (inl e, w).
Proof. done. Qed.

(** When media is granted the channel is created. *)
Lemma initialize_granted s w :
  (initialize (inr s) w).1 = inr s
  ∧ channel (initialize (inr s) w).2 = Some (mkChannel false false false)
  ∧ localStream (initialize (inr s) w).2 = Some s.
Proof. done. Qed.

(** C7: closing is idempotent at every level.  [close()] on a closed
    connection leaves it as it is; [removePeer] a second time finds no
    entry and does nothing; a second completed [cleanup()] ends in exactly
    the state the first one left, and neither call raises or sends
    anything. *)
Theorem close_and_cleanup_idempotent (c : RTCPeerConnection) (u : string) (w : World) :
  pc_close (pc_close c) = pc_close c
  ∧ removePeer u (removePeer u w) = removePeer u w
  ∧ cleanup_completed (cleanup_completed w) = cleanup_completed w
  ∧ trace (cleanup_completed (cleanup_completed w)) = trace w.
Proof.
  split; [apply pc_close_idem|]. split; [apply removePeer_idem|].
  rewrite !cleanup_completed_eq. simpl. split; [|done].
  rewrite map_to_list_empty. simpl. f_equal.
  - destruct (localStream w) as [s|]; [|done]. simpl. by rewrite stop_stream_idem.
  - by destruct (channel w).
Qed.

(** X16: two calls of [cleanup()] whose awaits settle only after both were
    made end in the same state as well. *)
Lemma cleanup_overlapping w :
  let n := length (pending w) in
  run [CallCleanup; CallCleanup; Resume n; Resume n] w = cleanup_completed w.
Proof.
  rewrite cleanup_completed_eq. unfold run.
  destruct w as [mid uid un ls ps [ch|] cs pd tr].
  - cbn [foldl pending]. change (step CallCleanup) with cleanup.
    rewrite !cleanup_eq.
    cbn [peers channel pending conns localStream trace meetingId userId userName
         fmap option_fmap option_map].
    rewrite <- (assoc_L (++)). cbn [app].
    match goal with
    | |- step _ (step _ ?x) = _ =>
        rewrite (resume_at x pd AfterUntrack [AfterUntrack]) by done
    end.
    cbn [resume_task removeChannel channel set_pending set_channel peers
         pending conns localStream trace meetingId userId userName].
    match goal with
    | |- step _ ?x = _ => rewrite (resume_at x pd AfterUntrack []) by done
    end.
    rewrite map_to_list_empty. cbn. rewrite app_nil_r. f_equal.
    destruct ls as [s|]; [|done]. cbn. by rewrite stop_stream_idem.
  - cbn [foldl pending]. change (step CallCleanup) with cleanup.
    rewrite !cleanup_eq.
    cbn [peers channel pending conns localStream trace meetingId userId userName
         fmap option_fmap option_map].
    rewrite !app_nil_r.
    match goal with
    | |- step _ (step _ ?x) = _ =>
        rewrite !(resume_nothing x) by (by apply lookup_ge_None_2)
    end.
    rewrite map_to_list_empty. cbn. f_equal.
    destruct ls as [s|]; [|done]. cbn. by rewrite stop_stream_idem.
Qed.

(** ** Suspended methods come to an end *)

Lemma resume_task_pending t w :
  pending (resume_task t w) = pending w
  ∨ ∃ t', pending (resume_task t w) = pending w ++ [t']
          ∧ awaits_left t' < awaits_left t.
Proof.
  destruct t; cbn [resume_task awaits_left].
  - destruct (with_pc _ _ w) as [e|w'] eqn:Hw; [by left|].
    destruct (with_pc_frame _ _ _ _ Hw) as (_ & _ & _ & _ & Hpd & _).
    right. eexists. cbn. rewrite Hpd. split; [done|]. cbn. lia.
  - left. by destruct (channel_send_frame (mkPayload (userId w) remote (OfferBody offer)) w)
      as (_ & _ & _ & _ & _ & ->).
  - unfold handleOffer_apply. destruct (peers w !! remote) as [i|]; [|by left].
    destruct (with_pc _ _ w) as [e|w'] eqn:Hw; [by left|].
    destruct (with_pc_frame _ _ _ _ Hw) as (_ & _ & _ & _ & Hpd & _).
    right. eexists. cbn. rewrite Hpd. split; [done|]. cbn. lia.
  - destruct (conns w !! pc) as [c|]; [|by left].
    destruct (pc_createAnswer c); [by left|].
    right. eexists. split; [done|]. cbn. lia.
  - destruct (with_pc _ _ w) as [e|w'] eqn:Hw; [by left|].
    destruct (with_pc_frame _ _ _ _ Hw) as (_ & _ & _ & _ & Hpd & _).
    right. eexists. cbn. rewrite Hpd. split; [done|]. cbn. lia.
  - left. by destruct (channel_send_frame (mkPayload (userId w) remote (AnswerBody answer)) w)
      as (_ & _ & _ & _ & _ & ->).
  - left. unfold removeChannel. by destruct (channel w).
Qed.

Lemma awaits_left_bounds t : 1 ≤ awaits_left t ≤ 4.
Proof. destruct t; cbn; lia. Qed.

(** With fuel for every await that is left, [settle] leaves nothing
    suspended. *)
Lemma settle_drains fuel w :
  sum_list_with awaits_left (pending w) ≤ fuel → pending (settle fuel w) = [].
Proof.
  revert w. induction fuel as [|fuel IH]; intros w Hle.
  - cbn [settle]. destruct (pending w) as [|t rest]; [done|].
    change (sum_list_with awaits_left (t :: rest))
      with (awaits_left t + sum_list_with awaits_left rest) in Hle.
    pose proof (awaits_left_bounds t). lia.
  - cbn [settle step]. destruct (pending w) as [|t rest] eqn:Hpd; [done|].
    cbn [lookup list_lookup delete list_delete]. cbn.
    apply IH. change (sum_list_with awaits_left (t :: rest))
      with (awaits_left t + sum_list_with awaits_left rest) in Hle.
    pose proof (awaits_left_bounds t).
    destruct (resume_task_pending t (set_pending rest w)) as [Heq|(t' & Heq & Hlt)];
      rewrite Heq; cbn [pending set_pending]; rewrite ?sum_list_with_app;
      cbn [sum_list_with]; lia.
Qed.

(** X17: so the fuel [run_to_completion] takes is always enough. *)
Lemma run_to_completion_drains w : pending (run_to_completion w) = [].
Proof.
  apply settle_drains.
  induction (pending w) as [|t rest IH]; [cbn; lia|].
  change (sum_list_with awaits_left (t :: rest))
    with (awaits_left t + sum_list_with awaits_left rest).
  pose proof (awaits_left_bounds t). cbn [length]. lia.
Qed.

(** ** Muting *)

Lemma set_enabled_kind k b t : track_kind (set_enabled k b t) = track_kind t.
Proof. unfold set_enabled. by case_decide. Qed.

Lemma set_enabled_stopped k b t : track_stopped (set_enabled k b t) = track_stopped t.
Proof. unfold set_enabled. by case_decide. Qed.

Lemma set_enabled_flag k b t :
  track_enabled (set_enabled k b t)
  = if decide (track_kind t = k) then b else track_enabled t.
Proof. unfold set_enabled. by case_decide. Qed.

Lemma toggle_kind_frame k b w : same_signalling w (toggle_kind k b w).
Proof. unfold toggle_kind, same_signalling. by destruct (localStream w). Qed.

Lemma toggle_kind_tracks k b w :
  local_stream_tracks (toggle_kind k b w) = set_enabled k b <$> local_stream_tracks w.
Proof.
  unfold toggle_kind, local_stream_tracks.
  destruct (localStream w) as [s|] eqn:Hs; simpl; by rewrite ?Hs.
Qed.

(** C9: [toggleVideo] and [toggleAudio] write the [enabled] flag of the
    local tracks of their kind and nothing else.  No message is sent (the
    trace is unchanged), the peers map, every connection with its
    negotiation state, the channel and the suspended tasks are unchanged;
    each local track keeps its kind and its stopped state, tracks of the
    other kind keep their flag. *)
Theorem toggles_only_flip_track_flags (enabled : bool) (w : World) :
  same_signalling w (toggleVideo enabled w)
  ∧ same_signalling w (toggleAudio enabled w)
  ∧ local_stream_tracks (toggleVideo enabled w)
    = set_enabled VideoTrack enabled <$> local_stream_tracks w
  ∧ local_stream_tracks (toggleAudio enabled w)
    = set_enabled AudioTrack enabled <$> local_stream_tracks w
  ∧ (∀ k t, track_kind (set_enabled k enabled t) = track_kind t
            ∧ track_stopped (set_enabled k enabled t) = track_stopped t
            ∧ track_enabled (set_enabled k enabled t)
              = if decide (track_kind t = k) then enabled else track_enabled t).
Proof.
  unfold toggleVideo, toggleAudio.
  repeat split; auto using toggle_kind_frame, toggle_kind_tracks,
    set_enabled_kind, set_enabled_stopped, set_enabled_flag;
    apply toggle_kind_frame.
Qed.

(** ** The peers map refers to open connections of the right user *)

Lemma links_wf_frame w w' :
  peers w' = peers w → conns w' = conns w → links_wf w → links_wf w'.
Proof. unfold links_wf. intros -> ->. done. Qed.

Lemma links_wf_construct mid uid uname : links_wf (construct mid uid uname).
Proof. intros u i. simpl. by rewrite lookup_empty. Qed.

Lemma addTracks_remote ts c :
  pc_remote (foldl (λ c t, pc_addTrack t c) c ts) = pc_remote c.
Proof. revert c. induction ts as [|t ts IH]; intros c; simpl; [done|]. by rewrite IH. Qed.

Lemma addTracks_signaling ts c :
  pc_signaling (foldl (λ c t, pc_addTrack t c) c ts) = pc_signaling c.
Proof. revert c. induction ts as [|t ts IH]; intros c; simpl; [done|]. by rewrite IH. Qed.

Lemma addTracks_senders ts c :
  pc_senders (foldl (λ c t, pc_addTrack t c) c ts) = pc_senders c ++ ts.
Proof.
  revert c. induction ts as [|t ts IH]; intros c; simpl; [by rewrite app_nil_r|].
  rewrite IH. simpl. by rewrite <- (assoc_L (++)).
Qed.

Lemma fresh_pc_open remote w :
  pc_remote (fresh_pc remote w) = remote ∧ pc_signaling (fresh_pc remote w) = SigStable.
Proof. unfold fresh_pc. by rewrite addTracks_remote, addTracks_signaling. Qed.

Lemma createPeerConnection_responder remote w :
  createPeerConnection remote false w
  = set_peers (<[remote:=length (conns w)]> (peers w))
              (set_conns (conns w ++ [fresh_pc remote w]) w).
Proof. done. Qed.

(** An initiator always gets as far as awaiting [createOffer]: the
    connection it has just constructed cannot be closed. *)
Lemma createPeerConnection_initiator remote w :
  createPeerConnection remote true w
  = suspend (AfterCreateOffer (length (conns w)) remote
               (mkSdp SdpOffer (length (local_tracks w))))
      (set_peers (<[remote:=length (conns w)]> (peers w))
                 (set_conns (conns w ++ [fresh_pc remote w]) w)).
Proof.
  unfold createPeerConnection. fold (fresh_pc remote w).
  unfold pc_createOffer, pc_is_closed.
  destruct (fresh_pc_open remote w) as [_ Hs]. rewrite Hs. simpl.
  unfold fresh_pc. by rewrite addTracks_senders.
Qed.

Lemma createPeerConnection_fields remote b w :
  let w' := createPeerConnection remote b w in
  peers w' = <[remote:=length (conns w)]> (peers w)
  ∧ conns w' = conns w ++ [fresh_pc remote w]
  ∧ channel w' = channel w ∧ localStream w' = localStream w
  ∧ userId w' = userId w
  ∧ trace w' = trace w.
Proof.
  destruct b; [rewrite createPeerConnection_initiator
              |rewrite createPeerConnection_responder]; done.
Qed.

Lemma links_wf_createPeerConnection remote b w :
  links_wf w → links_wf (createPeerConnection remote b w).
Proof.
  intros Hwf u i.
  destruct (createPeerConnection_fields remote b w) as (-> & -> & _).
  destruct (decide (remote = u)) as [->|Hne].
  - rewrite lookup_insert_eq. intros [= <-].
    exists (fresh_pc u w). rewrite list_lookup_middle by done.
    destruct (fresh_pc_open u w) as [-> ->]. done.
  - rewrite lookup_insert_ne by done. intros Hu.
    destruct (Hwf u i Hu) as (c & Hc & Hr & Hs).
    exists c. rewrite lookup_app_l by (by eapply lookup_lt_Some). done.
Qed.

Lemma keeps_link_setLocalDescription d : keeps_link (pc_setLocalDescription d).
Proof.
  intros c c'. unfold pc_setLocalDescription.
  destruct (sdp_type d), (pc_signaling c); intros [= <-]; done.
Qed.

Lemma keeps_link_setRemoteDescription d : keeps_link (pc_setRemoteDescription d).
Proof.
  intros c c'. unfold pc_setRemoteDescription.
  destruct (sdp_type d), (pc_signaling c); intros [= <-]; done.
Qed.

Lemma keeps_link_addIceCandidate k : keeps_link (pc_addIceCandidate k).
Proof.
  intros c c'. unfold pc_addIceCandidate.
  destruct (pc_is_closed c), (pc_remoteDescription c); intros [= <-]; done.
Qed.

Lemma links_wf_with_pc i op w w' :
  keeps_link op → with_pc i op w = inr w' → links_wf w → links_wf w'.
Proof.
  intros Hop Hw Hwf u j.
  destruct (with_pc_frame _ _ _ _ Hw) as (-> & _ & _ & _ & _ & _ & c & c' & Hc & Hopc & ->).
  intros Hu. destruct (Hwf u j Hu) as (cj & Hcj & Hr & Hs).
  destruct (decide (i = j)) as [->|Hne].
  - exists c'. rewrite list_lookup_insert_eq by (by eapply lookup_lt_Some).
    assert (cj = c) as -> by congruence.
    destruct (Hop c c' Hopc) as [-> Hkeep]. auto.
  - exists cj. by rewrite list_lookup_insert_ne.
Qed.

Lemma links_wf_emit o w : links_wf w → links_wf (emit o w).
Proof. by apply links_wf_frame. Qed.

Lemma links_wf_suspend t w : links_wf w → links_wf (suspend t w).
Proof. by apply links_wf_frame. Qed.

Lemma links_wf_channel_send p w : links_wf w → links_wf (channel_send p w).
Proof. unfold channel_send. destruct (channel w); apply links_wf_emit. Qed.

Lemma links_wf_handleOffer_apply remote d w :
  links_wf w → links_wf (handleOffer_apply remote d w).
Proof.
  intros Hwf. unfold handleOffer_apply.
  destruct (peers w !! remote) as [i|]; [|done].
  destruct (with_pc i _ w) as [e|w'] eqn:Hw.
  - by apply links_wf_emit.
  - apply links_wf_suspend.
    eapply links_wf_with_pc; eauto using keeps_link_setRemoteDescription.
Qed.

Lemma links_wf_handleOffer remote d w :
  links_wf w → links_wf (handleOffer remote d w).
Proof.
  intros Hwf. unfold handleOffer. destruct (peers w !! remote) eqn:Hp.
  - by apply links_wf_handleOffer_apply.
  - by apply links_wf_suspend, links_wf_createPeerConnection.
Qed.

Lemma links_wf_handleAnswer remote d w :
  links_wf w → links_wf (handleAnswer remote d w).
Proof.
  intros Hwf. unfold handleAnswer.
  destruct (peers w !! remote) as [i|]; [|done].
  destruct (with_pc i _ w) as [e|w'] eqn:Hw.
  - by apply links_wf_emit.
  - eapply links_wf_with_pc; eauto using keeps_link_setRemoteDescription.
Qed.

Lemma links_wf_handleIceCandidate remote k w :
  links_wf w → links_wf (handleIceCandidate remote k w).
Proof.
  intros Hwf. unfold handleIceCandidate.
  destruct (peers w !! remote) as [i|]; [|done].
  destruct (with_pc i _ w) as [e|w'] eqn:Hw.
  - by apply links_wf_emit.
  - eapply links_wf_with_pc; eauto using keeps_link_addIceCandidate.
Qed.

Lemma links_wf_removePeer u w : links_wf w → links_wf (removePeer u w).
Proof.
  intros Hwf. unfold removePeer. destruct (peers w !! u) as [i|] eqn:Hu; [|done].
  intros v j. simpl. intros Hv.
  destruct (decide (u = v)) as [->|Hne]; [by rewrite lookup_delete_eq in Hv|].
  rewrite lookup_delete_ne in Hv by done.
  destruct (Hwf v j Hv) as (c & Hc & Hr & Hs).
  destruct (Hwf u i Hu) as (c0 & Hc0 & Hr0 & _).
  exists c. rewrite list_lookup_alter_ne; [done|].
  intros ->. congruence.
Qed.

Lemma links_wf_cleanup w : links_wf (cleanup w).
Proof.
  intros u i. unfold cleanup.
  destruct (channel _); simpl; by rewrite lookup_empty.
Qed.

Lemma links_wf_on_sync state w : links_wf w → links_wf (on_sync state w).
Proof.
  revert w. induction state as [|[key [|p ps]] rest IH]; intros w Hwf; simpl.
  - done.
  - by apply links_wf_emit.
  - apply IH. destruct (_ && _); [by apply links_wf_emit|done].
Qed.

Lemma links_wf_on_join ps w : links_wf w → links_wf (on_join ps w).
Proof.
  revert w. induction ps as [|p ps IH]; intros w Hwf; simpl; [done|].
  apply IH. case_bool_decide; [by apply links_wf_createPeerConnection|done].
Qed.

Lemma links_wf_on_leave ps w : links_wf w → links_wf (on_leave ps w).
Proof.
  revert w. induction ps as [|p ps IH]; intros w Hwf; simpl; [done|].
  by apply IH, links_wf_emit, links_wf_removePeer.
Qed.

Lemma links_wf_resume_task t w : links_wf w → links_wf (resume_task t w).
Proof.
  intros Hwf. destruct t; simpl.
  - destruct (with_pc _ _ w) as [e|w'] eqn:Hw; [by apply links_wf_emit|].
    apply links_wf_suspend.
    eapply links_wf_with_pc; eauto using keeps_link_setLocalDescription.
  - by apply links_wf_channel_send.
  - by apply links_wf_handleOffer_apply.
  - destruct (conns w !! pc); [|by apply links_wf_emit].
    destruct (pc_createAnswer _); [by apply links_wf_emit|by apply links_wf_suspend].
  - destruct (with_pc _ _ w) as [e|w'] eqn:Hw; [by apply links_wf_emit|].
    apply links_wf_suspend.
    eapply links_wf_with_pc; eauto using keeps_link_setLocalDescription.
  - by apply links_wf_channel_send.
  - unfold removeChannel. by destruct (channel w).
Qed.

Lemma links_wf_step e w : links_wf w → links_wf (step e w).
Proof.
  intros Hwf. destruct e; simpl.
  - by destruct media.
  - unfold on_channel, on_subscribe_status.
    destruct (channel w); [|done]. by destruct subscribed.
  - unfold on_channel. destruct (channel w); [|done]. by apply links_wf_on_sync.
  - unfold on_channel. destruct (channel w); [|done]. by apply links_wf_on_join.
  - unfold on_channel. destruct (channel w); [|done]. by apply links_wf_on_leave.
  - unfold on_channel, on_broadcast. destruct (channel w); [|done].
    case_bool_decide; [|done].
    destruct (p_body p); auto using links_wf_handleOffer,
      links_wf_handleAnswer, links_wf_handleIceCandidate.
  - destruct (conns w !! pc); [|done]. unfold on_icecandidate.
    destruct candidate; [|done]. by apply links_wf_channel_send.
  - destruct (conns w !! pc); [|done]. unfold on_track.
    destruct streams; [done|]. by apply links_wf_emit.
  - destruct (pending w !! n); [|done]. by apply links_wf_resume_task.
  - unfold toggleVideo, toggle_kind. by destruct (localStream w).
  - unfold toggleAudio, toggle_kind. by destruct (localStream w).
  - apply links_wf_cleanup.
Qed.

Lemma links_wf_run es w : links_wf w → links_wf (run es w).
Proof.
  revert w. induction es as [|e es IH]; intros w Hwf; [done|].
  apply IH, links_wf_step, Hwf.
Qed.

(** In every state the manager can be in, each peers entry refers to an
    open connection towards its key; so distinct users never share a
    connection, and a user has at most the one connection the map holds. *)
Lemma reachable_links_wf w : reachable w → links_wf w.
Proof.
  intros (mid & uid & un & es & ->).
  apply links_wf_run, links_wf_construct.
Qed.

Lemma peers_injective w u v i :
  links_wf w → peers w !! u = Some i → peers w !! v = Some i → u = v.
Proof.
  intros Hwf Hu Hv.
  destruct (Hwf u i Hu) as (c & Hc & Hr & _).
  destruct (Hwf v i Hv) as (c' & Hc' & Hr' & _). congruence.
Qed.

(** ** Discovery through the join handler *)

Lemma on_join_fields ps w :
  channel (on_join ps w) = channel w ∧ userId (on_join ps w) = userId w
  ∧ localStream (on_join ps w) = localStream w
  ∧ trace (on_join ps w) = trace w.
Proof.
  revert w. induction ps as [|p ps IH]; intros w; simpl; [done|].
  destruct (IH (if bool_decide (pr_userId p ≠ userId w)
                then createPeerConnection (pr_userId p) true w else w))
    as (-> & -> & -> & ->).
  case_bool_decide; [|done].
  by destruct (createPeerConnection_fields (pr_userId p) true w)
    as (_ & _ & -> & -> & -> & ->).
Qed.

Lemma join_one w u uname ch :
  channel w = Some ch → u ≠ userId w →
  step (PresenceJoin [mkPresence u uname]) w = createPeerConnection u true w.
Proof.
  intros Hch Hu. simpl. unfold on_channel. rewrite Hch. simpl.
  by rewrite bool_decide_eq_true_2.
Qed.

Lemma open_links_nonempty w u i :
  links_wf w → peers w !! u = Some i → 1 ≤ length (open_links u w).
Proof.
  intros Hwf Hu. destruct (Hwf u i Hu) as (c & Hc & Hr & Hs).
  assert (c ∈ open_links u w) as Hin.
  { unfold open_links. apply list_elem_of_filter. split; [done|].
    by eapply list_elem_of_lookup_2. }
  destruct (open_links u w); [by apply not_elem_of_nil in Hin|simpl; lia].
Qed.

(** X12: the sibling path: [handleOffer] looks the sender up first and reuses
    the link it finds. *)
Lemma handleOffer_reuses_link w from d i :
  peers w !! from = Some i →
  peers (handleOffer from d w) = peers w
  ∧ length (conns (handleOffer from d w)) = length (conns w).
Proof.
  intros Hp. unfold handleOffer, handleOffer_apply. rewrite Hp.
  destruct (with_pc i _ w) as [e|w'] eqn:Hw; [done|].
  destruct (with_pc_frame _ _ _ _ Hw) as (Hpe & _ & _ & _ & _ & _ & c & c' & _ & _ & Hc).
  cbn. rewrite Hpe, Hc. by rewrite length_insert.
Qed.

(** C1: the join handler constructs a connection for every presence that
    is not the local user, whether or not the peers map already holds one
    for that user.  The map entry is overwritten, the connection it
    referred to is not closed: the user now has one open connection more
    than before, at least two, and the older one is out of the map's
    reach. *)
Theorem duplicate_join_leaves_old_link_open
  (w : World) (u uname : string) (i : nat) (ch : Channel) :
  channel w = Some ch → u ≠ userId w → links_wf w → peers w !! u = Some i →
  let w' := step (PresenceJoin [mkPresence u uname]) w in
  peers w' !! u = Some (length (conns w))
  ∧ i ≠ length (conns w)
  ∧ (∃ c, conns w' !! i = Some c ∧ pc_remote c = u ∧ pc_signaling c ≠ SigClosed)
  ∧ length (open_links u w') = S (length (open_links u w))
  ∧ 2 ≤ length (open_links u w').
Proof.
  intros Hch Hne Hwf Hu w'. subst w'. rewrite (join_one _ _ _ _ Hch Hne).
  destruct (createPeerConnection_fields u true w) as (Hp & Hc & _). simpl in Hp, Hc.
  destruct (Hwf u i Hu) as (c & Hci & Hr & Hs).
  pose proof (lookup_lt_Some _ _ _ Hci) as Hlt.
  assert (length (open_links u (createPeerConnection u true w))
          = S (length (open_links u w))) as Hlen.
  { unfold open_links. rewrite Hc, filter_app, length_app.
    rewrite (filter_cons_True _ (fresh_pc u w)); [simpl; lia|].
    by destruct (fresh_pc_open u w) as [-> ->]. }
  split; [by rewrite Hp, lookup_insert_eq|]. split; [lia|]. split.
  - exists c. by rewrite Hc, lookup_app_l.
  - split; [done|]. rewrite Hlen.
    pose proof (open_links_nonempty w u i Hwf Hu). lia.
Qed.

(** The join handler never calls [onParticipantJoined]. *)
Lemma on_join_joined_calls ps w : joined_calls (on_join ps w) = joined_calls w.
Proof.
  unfold joined_calls. by destruct (on_join_fields ps w) as (_ & _ & _ & ->).
Qed.

(** C3: the join handler constructs connections and notifies nobody: no
    [onParticipantJoined] call is made for any of the new presences.  The
    [sync] that follows does not make up for it, because by then the peers
    map already has the user. *)
Theorem join_handler_never_notifies
  (w : World) (ps : list Presence) (key u uname uname' : string) :
  joined_calls (step (PresenceJoin ps) w) = joined_calls w
  ∧ joined_calls (step (PresenceSync [(key, [mkPresence u uname'])])
                       (step (PresenceJoin [mkPresence u uname]) w))
    = joined_calls w.
Proof.
  assert (∀ ps, joined_calls (step (PresenceJoin ps) w) = joined_calls w) as Hjoin.
  { intros qs. simpl. unfold on_channel. destruct (channel w); [|done].
    apply on_join_joined_calls. }
  split; [apply Hjoin|].
  destruct (channel w) as [ch|] eqn:Hch; cycle 1.
  { cbn [step]. rewrite (on_channel_none _ w Hch).
    by rewrite (on_channel_none _ w Hch). }
  destruct (decide (u = userId w)) as [->|Hne].
  - cbn [step]. rewrite (on_channel_some _ w ch Hch). cbn [on_join pr_userId].
    rewrite bool_decide_eq_false_2 by (by intros []).
    rewrite (on_channel_some _ w ch Hch). cbn [on_sync pr_userId].
    by rewrite bool_decide_eq_false_2 by (by intros []).
  - rewrite (join_one _ _ _ _ Hch Hne).
    destruct (createPeerConnection_fields u true w) as (Hp & _ & Hc & _ & Hid & Htr).
    cbn zeta in Hp, Hc, Hid, Htr.
    cbn [step]. rewrite (on_channel_some _ _ ch) by (by rewrite Hc).
    cbn [on_sync pr_userId pr_userName]. unfold peers_has.
    rewrite Hp, lookup_insert_eq.
    rewrite (bool_decide_eq_true_2 (is_Some (Some _))) by eauto.
    rewrite andb_false_r. unfold joined_calls. by rewrite Htr.
Qed.

(** The sync handler does notify, and again on every snapshot that arrives
    before a link to the user exists. *)
Lemma sync_notifies_each_time w key u uname ch :
  channel w = Some ch → u ≠ userId w → peers w !! u = None →
  let snapshot := PresenceSync [(key, [mkPresence u uname])] in
  joined_calls (step snapshot (step snapshot w)) = joined_calls w ++ [u; u].
Proof.
  intros Hch Hne Hnone. simpl. unfold on_channel. rewrite Hch. simpl.
  unfold peers_has. rewrite Hnone.
  rewrite bool_decide_eq_true_2 by done.
  rewrite (bool_decide_eq_false_2 (is_Some None)) by (by intros [? ?]).
  simpl. rewrite Hch. simpl. rewrite Hnone.
  rewrite bool_decide_eq_true_2 by done.
  rewrite (bool_decide_eq_false_2 (is_Some None)) by (by intros [? ?]).
  simpl. unfold joined_calls. simpl. rewrite !omap_app. simpl.
  by rewrite <- (assoc_L (++)).
Qed.

(** ** Candidates and the link they belong to *)



(** With this transport, a candidate for a link that has no remote
    description yet is rejected by [addIceCandidate]; nothing keeps it. *)
Lemma candidate_before_description_rejected w from k ch i c :
  channel w = Some ch → peers w !! from = Some i → conns w !! i = Some c →
  pc_remoteDescription c = None →
  step (Broadcast (mkPayload from (userId w) (CandidateBody k))) w
  = emit (Unhandled InvalidStateError) w.
Proof.
  intros Hch Hp Hc Hd.
  rewrite (broadcast_for_self_dispatches _ _ ch) by done. simpl.
  unfold handleIceCandidate, with_pc, pc_addIceCandidate.
  rewrite Hp, Hc, Hd. by destruct (pc_is_closed c).
Qed.

(** ** Messages that arrive after leaving *)

Lemma length_close_each ids cs : length (close_each ids cs) = length cs.
Proof.
  induction ids as [|i ids IH]; simpl; [done|]. by rewrite length_alter.
Qed.




(** ** Two participants, one after the other *)

Lemma addTracks_eq ts c :
  foldl (λ c t, pc_addTrack t c) c ts
  = mkPC (pc_remote c) (pc_signaling c) (pc_senders c ++ ts)
         (pc_localDescription c) (pc_remoteDescription c) (pc_candidates c).
Proof.
  revert c. induction ts as [|t ts IH]; intros c; cbn [foldl].
  - rewrite app_nil_r. by destruct c.
  - rewrite IH. cbn. by rewrite <- (assoc_L (++)).
Qed.

Lemma pump_step f i e rest r w w' :
  r !! i = Some w → run_to_completion (step e w) = w' →
  pump (S f) ((i, e) :: rest) r
  = pump f (rest ++ fanout i (length r) (sends_since (length (trace w)) w'))
         (<[i:=w']> r).
Proof.
  intros Hr Hw. cbn [pump]. unfold handle_at. rewrite Hr. cbn zeta.
  by rewrite Hw.
Qed.

Lemma run_to_completion_staged w w1 :
  w = w1 → run_to_completion w = settle (4 * length (pending w1)) w1.
Proof. by intros ->. Qed.

Lemma settle_next n w t rest w' :
  pending w = t :: rest → resume_task t (set_pending rest w) = w' →
  settle (S n) w = settle n w'.
Proof. intros Hp <-. cbn [settle step]. by rewrite Hp. Qed.

Lemma settle_done n w : pending w = [] → settle n w = w.
Proof. intros Hp. destruct n; cbn [settle]; by rewrite ?Hp. Qed.

Section two_participants.
Context (mid a aname b bname : string) (ma mb : MediaStream).
Hypothesis Hab : a ≠ b.

Local Lemma self_a : bool_decide (a ≠ a) = false.
Proof. by apply bool_decide_eq_false_2; intros []. Qed.
Local Lemma self_b : bool_decide (b ≠ b) = false.
Proof. by apply bool_decide_eq_false_2; intros []. Qed.
Local Lemma other_ab : bool_decide (a ≠ b) = true.
Proof using Hab. by apply bool_decide_eq_true_2. Qed.
Local Lemma other_ba : bool_decide (b ≠ a) = true.
Proof using Hab. by apply bool_decide_eq_true_2. Qed.
Local Lemma to_a : bool_decide (a = a) = true.
Proof. by apply bool_decide_eq_true_2. Qed.
Local Lemma to_b : bool_decide (b = b) = true.
Proof. by apply bool_decide_eq_true_2. Qed.

  (** Evaluate one handler on a manager whose fields are known, keeping
      the user ids symbolic. *)
Ltac exec :=
    repeat (progress (
      unfold with_pc, channel_send, handleOffer, handleOffer_apply, handleAnswer,
        handleIceCandidate, removePeer, on_channel, on_broadcast, peers_has,
        createPeerConnection, suspend, emit, set_pending,
        set_conns, set_channel, set_peers, set_localStream, pc_createOffer,
        pc_is_closed, pc_createAnswer, pc_setLocalDescription,
        pc_setRemoteDescription, initialize, on_subscribe_status, local_tracks;
      cbn;
      rewrite ?addTracks_eq, ?lookup_empty, ?lookup_insert_eq, ?self_a, ?self_b,
        ?other_ab, ?other_ba, ?to_a, ?to_b)).

Ltac settle_all :=
    cbn [Nat.mul Nat.add length pending];
    repeat (erewrite settle_next; [ | reflexivity | exec; reflexivity ]);
    rewrite settle_done by reflexivity.

Ltac deliver :=
    erewrite pump_step;
    [ | reflexivity
      | erewrite run_to_completion_staged; [ | exec; reflexivity ];
        settle_all; reflexivity ];
    cbn -[pump].

Lemma two_join_eq :
    two_join mid a aname b bname ma mb
    = ([first_after mid a aname b ma mb; second_after mid a aname b bname ma mb], []).
Proof using Hab.
    unfold two_join, enter, presence_state, presence, construct. cbn -[pump].
    do 12 deliver. done.
  Qed.
End two_participants.

(** C2, as amended: when [a] is in the meeting and [b] enters (so that [b]
    learns of [a] from the presence snapshot and [a] of [b] from a join
    event), the relay comes to rest with nothing suspended; [b]'s sync
    handler has called [onParticipantJoined] for [a] and sent no offer;
    the one offer of the pair was sent by [a], whose join handler
    constructed the initiator link, and is addressed to [b]; [b] answered,
    both links are stable, nothing was raised, and when [b]'s track arrives
    on [a]'s link [onStreamAdded] is called for [b]. *)
Theorem earlier_participant_sends_the_only_offer
  (mid a aname b bname : string) (ma mb : MediaStream) :
  a ≠ b →
  ∃ wa wb,
    two_join mid a aname b bname ma mb = ([wa; wb], [])
    ∧ pending wa = [] ∧ pending wb = []
    ∧ joined_calls wb = [a]
    ∧ offers_sent wa = [mkPayload a b (OfferBody (offer_of ma))]
    ∧ offers_sent wb = []
    ∧ sends wb = [mkPayload b a (AnswerBody (answer_of mb))]
    ∧ (∃ ca, link b wa = Some ca ∧ pc_signaling ca = SigStable
             ∧ pc_remoteDescription ca = Some (answer_of mb))
    ∧ (∃ cb, link a wb = Some cb ∧ pc_signaling cb = SigStable
             ∧ pc_remoteDescription cb = Some (offer_of ma))
    ∧ errors wa = [] ∧ errors wb = []
    ∧ (∀ i s, peers wa !! b = Some i →
              trace (step (TrackReceived i [s]) wa) = trace wa ++ [StreamAdded b s]).
Proof.
  intros Hab.
  exists (first_after mid a aname b ma mb), (second_after mid a aname b bname ma mb).
  split; [by apply two_join_eq|].
  unfold first_after, second_after, link, joined_calls, offers_sent, sends, errors.
  cbn. rewrite !lookup_insert_eq. cbn.
  repeat split; eauto.
  intros i s [= <-]. done.
Qed.

Lemma earlier_participant_witness :
  ∃ wa wb,
    two_join standup alice "Alice" bob "Bob" (camera 1) (camera 2) = ([wa; wb], [])
    ∧ pending wa = [] ∧ pending wb = []
    ∧ joined_calls wb = [alice]
    ∧ offers_sent wa = [mkPayload alice bob (OfferBody (offer_of (camera 1)))]
    ∧ offers_sent wb = []
    ∧ sends wb = [mkPayload bob alice (AnswerBody (answer_of (camera 2)))]
    ∧ (∃ ca, link bob wa = Some ca ∧ pc_signaling ca = SigStable
             ∧ pc_remoteDescription ca = Some (answer_of (camera 2)))
    ∧ (∃ cb, link alice wb = Some cb ∧ pc_signaling cb = SigStable
             ∧ pc_remoteDescription cb = Some (offer_of (camera 1)))
    ∧ errors wa = [] ∧ errors wb = []
    ∧ (∀ i s, peers wa !! bob = Some i →
              trace (step (TrackReceived i [s]) wa) = trace wa ++ [StreamAdded bob s]).
Proof.
  apply (earlier_participant_sends_the_only_offer
           standup alice "Alice" bob "Bob" (camera 1) (camera 2)).
  discriminate.
Defined.

(** C2 as worded fails: with alice first and bob second, bob sends no
    offer at all. *)
Lemma newcomer_does_not_offer :
  ¬ newcomer_offers (two_join standup alice "Alice" bob "Bob" (camera 1) (camera 2))
      alice bob.
Proof.
  intros (wa & wb & Hr & _ & (d & Hb) & _).
  rewrite two_join_eq in Hr by discriminate.
  injection Hr as <- <-. discriminate Hb.
Qed.


(** ** The other statements at concrete sessions *)

Lemma duplicate_join_witness :
  let w' := step (PresenceJoin [mkPresence bob "Bob"]) alice_offered in
  peers w' !! bob = Some (length (conns alice_offered))
  ∧ 0 ≠ length (conns alice_offered)
  ∧ (∃ c, conns w' !! 0 = Some c ∧ pc_remote c = bob ∧ pc_signaling c ≠ SigClosed)
  ∧ length (open_links bob w') = S (length (open_links bob alice_offered))
  ∧ 2 ≤ length (open_links bob w').
Proof.
  apply (duplicate_join_leaves_old_link_open alice_offered bob "Bob" 0 joined_channel).
  - vm_compute. reflexivity.
  - discriminate.
  - unfold alice_offered. apply links_wf_run, links_wf_construct.
  - vm_compute. reflexivity.
Defined.

(** After the second join event for bob and a completed [cleanup()], the
    connection constructed for the first one is still open: nothing refers
    to it any more. *)
Example duplicate_join_leaks :
  let w := run_to_completion (step (PresenceJoin [mkPresence bob "Bob"]) alice_offered) in
  pc_signaling <$> conns w = [SigHaveLocalOffer; SigHaveLocalOffer]
  ∧ peers w !! bob = Some 1
  ∧ length (offers_sent w) = 2
  ∧ pc_signaling <$> conns (cleanup_completed w) = [SigHaveLocalOffer; SigClosed].
Proof. vm_compute. done. Qed.

(** An offer that alice handles while her [cleanup()] is still awaiting
    [untrack()] gives her a link when the map was already cleared; the
    method continues after [cleanup()] has completed and applies the
    description. *)
Example offer_during_cleanup_survives :
  let w := run [CallCleanup;
                Broadcast (mkPayload bob alice (OfferBody (offer_of (camera 2))));
                Resume 0; Resume 0] alice_offered in
  channel w = Some (mkChannel false false true)
  ∧ peers w !! bob = Some 1
  ∧ link bob w = Some (mkPC bob SigHaveRemoteOffer [0; 1] None
                            (Some (offer_of (camera 2))) []).
Proof. vm_compute. done. Qed.



Lemma other_recipient_witness :
  step (Broadcast (mkPayload bob carol (OfferBody (offer_of (camera 2))))) alice_ready
  = alice_ready.
Proof.
  apply (broadcast_for_other_recipient_ignored alice_ready
           (mkPayload bob carol (OfferBody (offer_of (camera 2))))).
  discriminate.
Defined.

Lemma no_link_witness :
  step (Broadcast (mkPayload bob alice (AnswerBody (answer_of (camera 2))))) alice_ready
  = alice_ready
  ∧ step (Broadcast (mkPayload bob alice (CandidateBody 7))) alice_ready = alice_ready.
Proof.
  apply (answer_or_candidate_without_link_is_noop alice_ready bob alice
           (answer_of (camera 2)) 7).
  vm_compute. reflexivity.
Defined.

(** The same offer to the same manager is not ignored when it is
    addressed to her. *)
Example offer_for_self_is_handled :
  peers (step (Broadcast (mkPayload bob alice (OfferBody (offer_of (camera 2)))))
              alice_ready) !! bob = Some 0.
Proof. vm_compute. reflexivity. Qed.

(** * Further properties of the manager *)

(** ** What [cleanup] and the leave handler release *)

Lemma close_each_lookup ids cs i :
  close_each ids cs !! i
  = if bool_decide (i ∈ ids) then pc_close <$> cs !! i else cs !! i.
Proof.
  induction ids as [|a ids IH]; cbn [close_each foldr].
  - by rewrite bool_decide_eq_false_2 by apply not_elem_of_nil.
  - fold (close_each ids cs). destruct (decide (a = i)) as [->|Hne].
    + rewrite list_lookup_alter_eq, IH.
      rewrite (bool_decide_eq_true_2 (i ∈ i :: ids)) by apply list_elem_of_here.
      case_bool_decide; [|done]. by destruct (cs !! i).
    + rewrite list_lookup_alter_ne, IH by done.
      rewrite (bool_decide_ext (i ∈ a :: ids) (i ∈ ids)); [done|].
      rewrite elem_of_cons. intuition congruence.
Qed.

Lemma held_by_peers (m : gmap string nat) i :
  i ∈ (map_to_list m).*2 ↔ ∃ u, m !! u = Some i.
Proof.
  rewrite list_elem_of_fmap. split.
  - intros ([u j] & -> & Hin). exists u. by apply elem_of_map_to_list in Hin.
  - intros (u & Hu). exists (u, i). split; [done|]. by apply elem_of_map_to_list.
Qed.

(** X3: a completed [cleanup()] closes exactly the connections the peers map
    refers to and forgets them all, stops every local track without
    changing its kind or mute flag, removes the channel, and calls no
    callback and sends nothing.  A connection the map does not refer to is
    left as it is. *)
Theorem cleanup_releases_what_the_map_holds (w : World) :
  let w' := cleanup_completed w in
  peers w' = ∅
  ∧ (∀ u i, peers w !! u = Some i → conns w' !! i = pc_close <$> conns w !! i)
  ∧ (∀ j, (∀ u, peers w !! u ≠ Some j) → conns w' !! j = conns w !! j)
  ∧ Forall (λ t, track_stopped t = true) (local_stream_tracks w')
  ∧ track_kind <$> local_stream_tracks w' = track_kind <$> local_stream_tracks w
  ∧ track_enabled <$> local_stream_tracks w' = track_enabled <$> local_stream_tracks w
  ∧ channel w' = removed_channel <$> channel w
  ∧ trace w' = trace w.
Proof.
  cbn zeta. rewrite cleanup_completed_eq. cbn.
  split; [done|]. split; [|split]; [| |split; [|split; [|split]]].
  - intros u i Hu. rewrite close_each_lookup, bool_decide_eq_true_2; [done|].
    apply held_by_peers. eauto.
  - intros j Hj. rewrite close_each_lookup, bool_decide_eq_false_2; [done|].
    rewrite held_by_peers. intros (u & Hu). by apply (Hj u).
  - unfold local_stream_tracks. cbn. destruct (localStream w) as [s|]; cbn; [|done].
    apply Forall_fmap, Forall_true. done.
  - unfold local_stream_tracks. cbn. destruct (localStream w) as [s|]; cbn; [|done].
    rewrite <- list_fmap_compose. by apply list_fmap_ext.
  - unfold local_stream_tracks. cbn. destruct (localStream w) as [s|]; cbn; [|done].
    rewrite <- list_fmap_compose. by apply list_fmap_ext.
  - done.
Qed.

Lemma on_leave_one w u uname ch :
  channel w = Some ch →
  step (PresenceLeave [mkPresence u uname]) w
  = emit (ParticipantLeft u) (removePeer u w).
Proof. intros Hch. cbn [step]. by rewrite (on_channel_some _ _ ch). Qed.

(** X4: a leave event for [u] closes the connection the map holds for [u] and
    drops the entry, leaves every other entry and every other connection
    alone, and calls [onParticipantLeft] for [u] whether or not a link
    existed.  An answer or a candidate from [u] that arrives afterwards is
    ignored. *)
Theorem leave_closes_and_forgets_that_link
  (w : World) (u uname : string) (ch : Channel) :
  channel w = Some ch →
  let w' := step (PresenceLeave [mkPresence u uname]) w in
  peers w' = delete u (peers w)
  ∧ (∀ i, peers w !! u = Some i → conns w' !! i = pc_close <$> conns w !! i)
  ∧ (∀ j, peers w !! u ≠ Some j → conns w' !! j = conns w !! j)
  ∧ trace w' = trace w ++ [ParticipantLeft u]
  ∧ pending w' = pending w
  ∧ (∀ to d, step (Broadcast (mkPayload u to (AnswerBody d))) w' = w')
  ∧ (∀ to k, step (Broadcast (mkPayload u to (CandidateBody k))) w' = w').
Proof.
  intros Hch w'. subst w'. rewrite (on_leave_one _ _ _ _ Hch).
  assert (peers (emit (ParticipantLeft u) (removePeer u w)) = delete u (peers w)) as Hp.
  { unfold removePeer. destruct (peers w !! u) eqn:Hu; cbn; [done|].
    by rewrite delete_id. }
  split; [done|].
  assert (peers (emit (ParticipantLeft u) (removePeer u w)) !! u = None) as Hnone
    by (rewrite Hp; apply lookup_delete_eq).
  assert (∀ to d k,
    step (Broadcast (mkPayload u to (AnswerBody d)))
         (emit (ParticipantLeft u) (removePeer u w))
    = emit (ParticipantLeft u) (removePeer u w)
    ∧ step (Broadcast (mkPayload u to (CandidateBody k)))
           (emit (ParticipantLeft u) (removePeer u w))
      = emit (ParticipantLeft u) (removePeer u w)) as Hlate
    by (intros; by apply answer_or_candidate_noop_aux).
  clear Hp Hnone. unfold removePeer in *.
  destruct (peers w !! u) as [i|] eqn:Hu; cbn.
  - split; [intros ? [= <-]; apply list_lookup_alter_eq|].
    split; [intros j Hj; apply list_lookup_alter_ne; congruence|].
    do 2 (split; [done|]).
    split; [intros to d; apply (Hlate to d 0)
           |intros to k; apply (Hlate to (mkSdp SdpOffer 0) k)].
  - split; [done|]. split; [done|]. do 2 (split; [done|]).
    split; [intros to d; apply (Hlate to d 0)
           |intros to k; apply (Hlate to (mkSdp SdpOffer 0) k)].
Qed.

Lemma leave_witness :
  let w' := step (PresenceLeave [mkPresence bob "Bob"]) alice_offered in
  peers w' = delete bob (peers alice_offered)
  ∧ (∀ i, peers alice_offered !! bob = Some i →
          conns w' !! i = pc_close <$> conns alice_offered !! i)
  ∧ (∀ j, peers alice_offered !! bob ≠ Some j → conns w' !! j = conns alice_offered !! j)
  ∧ trace w' = trace alice_offered ++ [ParticipantLeft bob]
  ∧ pending w' = pending alice_offered
  ∧ (∀ to d, step (Broadcast (mkPayload bob to (AnswerBody d))) w' = w')
  ∧ (∀ to k, step (Broadcast (mkPayload bob to (CandidateBody k))) w' = w').
Proof.
  apply (leave_closes_and_forgets_that_link alice_offered bob "Bob" joined_channel).
  vm_compute. reflexivity.
Defined.

(** ** Where connections come from *)

Lemma no_new_link_refl w : no_new_link w w.
Proof. by split. Qed.

Lemma no_new_link_trans w1 w2 w3 :
  no_new_link w1 w2 → no_new_link w2 w3 → no_new_link w1 w3.
Proof. intros [H1 H2] [H3 H4]. split; [congruence|set_solver]. Qed.

Lemma no_new_link_frame w w' :
  conns w' = conns w → peers w' = peers w → no_new_link w w'.
Proof. intros Hc Hp. unfold no_new_link. by rewrite Hc, Hp. Qed.

Lemma no_new_link_with_pc i op w w' : with_pc i op w = inr w' → no_new_link w w'.
Proof.
  intros Hw.
  destruct (with_pc_frame _ _ _ _ Hw) as (Hp & _ & _ & _ & _ & _ & c & c' & _ & _ & Hc).
  unfold no_new_link. by rewrite Hp, Hc, length_insert.
Qed.

Lemma no_new_link_handleOffer_apply remote d w :
  no_new_link w (handleOffer_apply remote d w).
Proof.
  unfold handleOffer_apply. destruct (peers w !! remote); [|apply no_new_link_refl].
  destruct (with_pc _ _ w) as [e|w'] eqn:Hw; [by apply no_new_link_frame|].
  eapply no_new_link_trans; [by eapply no_new_link_with_pc|].
  by apply no_new_link_frame.
Qed.

Lemma no_new_link_removePeer u w : no_new_link w (removePeer u w).
Proof.
  unfold removePeer. destruct (peers w !! u); [|apply no_new_link_refl].
  unfold no_new_link. cbn. rewrite length_alter, dom_delete_L.
  split; [done|by apply subseteq_difference_l].
Qed.

Lemma no_new_link_on_leave ps w : no_new_link w (on_leave ps w).
Proof.
  revert w. induction ps as [|p ps IH]; intros w; cbn [on_leave];
    [apply no_new_link_refl|].
  eapply no_new_link_trans; [|apply IH].
  eapply no_new_link_trans; [apply (no_new_link_removePeer (pr_userId p))|].
  by apply no_new_link_frame.
Qed.

Lemma no_new_link_on_sync state w : no_new_link w (on_sync state w).
Proof.
  revert w. induction state as [|[key [|p ps]] rest IH]; intros w; cbn [on_sync].
  - apply no_new_link_refl.
  - by apply no_new_link_frame.
  - eapply no_new_link_trans; [|apply IH].
    destruct (_ && _); [by apply no_new_link_frame|apply no_new_link_refl].
Qed.

Lemma no_new_link_resume_task t w : no_new_link w (resume_task t w).
Proof.
  destruct t; cbn [resume_task].
  - destruct (with_pc _ _ w) as [e|w'] eqn:Hw; [by apply no_new_link_frame|].
    eapply no_new_link_trans; [by eapply no_new_link_with_pc|].
    by apply no_new_link_frame.
  - destruct (channel_send_frame (mkPayload (userId w) remote (OfferBody offer)) w)
      as (Hp & Hc & _). by apply no_new_link_frame.
  - apply no_new_link_handleOffer_apply.
  - destruct (conns w !! pc); [|by apply no_new_link_frame].
    destruct (pc_createAnswer _); by apply no_new_link_frame.
  - destruct (with_pc _ _ w) as [e|w'] eqn:Hw; [by apply no_new_link_frame|].
    eapply no_new_link_trans; [by eapply no_new_link_with_pc|].
    by apply no_new_link_frame.
  - destruct (channel_send_frame (mkPayload (userId w) remote (AnswerBody answer)) w)
      as (Hp & Hc & _). by apply no_new_link_frame.
  - unfold removeChannel. destruct (channel w); by apply no_new_link_frame.
Qed.

(** X6: connections are constructed, and users entered in the peers map, only
    while a presence join or a broadcast offer is handled.  No other event
    does it: not a sync snapshot, not an answer or a candidate, not the
    continuation of any suspended method, not a call of the public
    methods. *)
Theorem links_only_from_joins_and_offers (e : Event) (w : World) :
  constructs_links e = false → no_new_link w (step e w).
Proof.
  intros He. destruct e; try discriminate He; cbn [step].
  - destruct media; by apply no_new_link_frame.
  - unfold on_channel, on_subscribe_status. destruct (channel w); [|apply no_new_link_refl].
    destruct subscribed; by apply no_new_link_frame.
  - unfold on_channel. destruct (channel w); [|apply no_new_link_refl].
    apply no_new_link_on_sync.
  - unfold on_channel. destruct (channel w); [|apply no_new_link_refl].
    apply no_new_link_on_leave.
  - unfold on_channel, on_broadcast. destruct (channel w); [|apply no_new_link_refl].
    case_bool_decide; [|apply no_new_link_refl].
    cbn in He. unfold is_offer in He. destruct (p_body p); [done| |].
    + unfold handleAnswer. destruct (peers w !! p_from p); [|apply no_new_link_refl].
      destruct (with_pc _ _ w) as [e|w'] eqn:Hw; [by apply no_new_link_frame|].
      by eapply no_new_link_with_pc.
    + unfold handleIceCandidate. destruct (peers w !! p_from p); [|apply no_new_link_refl].
      destruct (with_pc _ _ w) as [e|w'] eqn:Hw; [by apply no_new_link_frame|].
      by eapply no_new_link_with_pc.
  - destruct (conns w !! pc); [|apply no_new_link_refl]. unfold on_icecandidate.
    destruct candidate; [|apply no_new_link_refl].
    destruct (channel_send_frame (mkPayload (userId w) (pc_remote r) (CandidateBody c)) w)
      as (Hp & Hc & _). by apply no_new_link_frame.
  - destruct (conns w !! pc); [|apply no_new_link_refl]. unfold on_track.
    destruct streams; [apply no_new_link_refl|by apply no_new_link_frame].
  - destruct (pending w !! n); [|apply no_new_link_refl].
    eapply no_new_link_trans; [|apply no_new_link_resume_task].
    by apply no_new_link_frame.
  - unfold toggleVideo, toggle_kind. destruct (localStream w); by apply no_new_link_frame.
  - unfold toggleAudio, toggle_kind. destruct (localStream w); by apply no_new_link_frame.
  - rewrite cleanup_eq. unfold no_new_link. cbn. rewrite length_close_each.
    split; [done|set_solver].
Qed.

Lemma links_only_witness :
  no_new_link alice_offered
    (step (PresenceSync [(bob, [mkPresence bob "Bob"]); (carol, [mkPresence carol "Carol"])])
          alice_offered).
Proof.
  apply (links_only_from_joins_and_offers
           (PresenceSync [(bob, [mkPresence bob "Bob"]);
                          (carol, [mkPresence carol "Carol"])]) alice_offered).
  reflexivity.
Defined.

(** ** The two halves of a negotiation, from any state *)

Lemma with_pc_last cs c op c' w :
  conns w = cs ++ [c] → op c = inr c' →
  with_pc (length cs) op w = inr (set_conns (cs ++ [c']) w).
Proof.
  intros Hc Hop. unfold with_pc. rewrite Hc, list_lookup_middle, Hop by done.
  rewrite insert_app_r_alt, Nat.sub_diag by done. done.
Qed.

(** Resume the task that was suspended last, in the innermost world. *)
Ltac resume_innermost pd :=
  match goal with
  | |- context [step (Resume (length pd)) ?x] =>
      lazymatch x with
      | context [step (Resume _) _] => fail
      | _ => erewrite (resume_at x pd _ []) by reflexivity; rewrite app_nil_r
      end
  end.

Ltac norm_world :=
  unfold suspend;
  cbn [pending conns set_peers set_conns set_pending set_channel set_localStream
       emit peers localStream channel trace meetingId userId userName
       local_tracks resume_task].

Lemma fresh_pc_eq remote w :
  fresh_pc remote w = mkPC remote SigStable (local_tracks w) None None [].
Proof. unfold fresh_pc. by rewrite addTracks_eq. Qed.

(** X7: the initiator half.  When a join event for a remote user [u] is
    handled and the two awaits of [createPeerConnection] settle, whatever
    else was suspended, the manager is as before except for this: a new
    connection towards [u] with all local tracks attached holds the offer
    as its local description and waits for the answer, the peers map
    refers to it, and exactly one message was sent, the offer, from self
    to [u]. *)
Theorem join_sends_one_offer (w : World) (u uname : string) (ch : Channel) :
  channel w = Some ch → u ≠ userId w →
  let n := length (pending w) in
  let offer := mkSdp SdpOffer (length (local_tracks w)) in
  run [PresenceJoin [mkPresence u uname]; Resume n; Resume n] w
  = mkWorld (meetingId w) (userId w) (userName w) (localStream w)
      (<[u:=length (conns w)]> (peers w)) (channel w)
      (conns w ++ [mkPC u SigHaveLocalOffer (local_tracks w) (Some offer) None []])
      (pending w)
      (trace w ++ [Send (mkPayload (userId w) u (OfferBody offer))]).
Proof.
  intros Hch Hu n offer. subst n offer. unfold run. cbn [foldl].
  rewrite (join_one _ _ _ _ Hch Hu), createPeerConnection_initiator, fresh_pc_eq.
  destruct w as [mid uid un ls ps c cs pd tr]. cbn in Hch, Hu. subst c.
  norm_world.
  resume_innermost pd.
  norm_world.
  erewrite with_pc_last by reflexivity.
  norm_world.
  resume_innermost pd.
  norm_world.
  unfold channel_send. cbn. done.
Qed.

Lemma join_sends_one_offer_witness :
  run [PresenceJoin [mkPresence bob "Bob"]; Resume 0; Resume 0] alice_ready
  = mkWorld standup alice "Alice" (Some (camera 1)) (<[bob:=0]> ∅)
      (Some joined_channel)
      [mkPC bob SigHaveLocalOffer [0; 1] (Some (offer_of (camera 1))) None []]
      []
      [Send (mkPayload alice bob (OfferBody (offer_of (camera 1))))].
Proof.
  apply (join_sends_one_offer alice_ready bob "Bob" joined_channel).
  - vm_compute. reflexivity.
  - discriminate.
Defined.

(** X8: the responder half.  When an offer addressed to self arrives from a
    user the peers map does not know and the four awaits of [handleOffer]
    settle, the manager is as before except for this: a new connection
    towards the sender with all local tracks attached holds the offer as
    its remote and the answer as its local description and is stable, the
    peers map refers to it, and exactly one message was sent, the answer,
    from self to the sender. *)
Theorem first_offer_is_answered
  (w : World) (from : string) (offer : SessionDescription) (ch : Channel) :
  channel w = Some ch → peers w !! from = None → sdp_type offer = SdpOffer →
  let n := length (pending w) in
  let answer := mkSdp SdpAnswer (length (local_tracks w)) in
  run [Broadcast (mkPayload from (userId w) (OfferBody offer));
       Resume n; Resume n; Resume n; Resume n] w
  = mkWorld (meetingId w) (userId w) (userName w) (localStream w)
      (<[from:=length (conns w)]> (peers w)) (channel w)
      (conns w ++ [mkPC from SigStable (local_tracks w) (Some answer) (Some offer) []])
      (pending w)
      (trace w ++ [Send (mkPayload (userId w) from (AnswerBody answer))]).
Proof.
  intros Hch Hp Hty n answer. subst n answer. unfold run. cbn [foldl].
  rewrite (broadcast_for_self_dispatches _ _ ch) by done. cbn [p_body p_from].
  unfold handleOffer. rewrite Hp, createPeerConnection_responder, fresh_pc_eq.
  destruct w as [mid uid un ls ps c cs pd tr]. cbn in Hch, Hp. subst c.
  destruct offer as [ty k]. cbn in Hty. subst ty.
  norm_world.
  resume_innermost pd.
  cbn [resume_task]. unfold handleOffer_apply. norm_world.
  rewrite lookup_insert_eq. erewrite with_pc_last by reflexivity.
  norm_world.
  resume_innermost pd.
  norm_world.
  rewrite list_lookup_middle by done.
  cbn [pc_createAnswer pc_signaling pc_senders]. norm_world.
  resume_innermost pd.
  norm_world.
  erewrite with_pc_last by reflexivity.
  norm_world.
  resume_innermost pd.
  norm_world.
  unfold channel_send. cbn. done.
Qed.

Lemma first_offer_is_answered_witness :
  run [Broadcast (mkPayload alice bob (OfferBody (offer_of (camera 1))));
       Resume 0; Resume 0; Resume 0; Resume 0]
      (run [CallInitialize (inr (camera 2)); SubscribeStatus true]
           (construct standup bob "Bob"))
  = mkWorld standup bob "Bob" (Some (camera 2)) (<[alice:=0]> ∅)
      (Some joined_channel)
      [mkPC alice SigStable [0; 1] (Some (answer_of (camera 2)))
            (Some (offer_of (camera 1))) []]
      []
      [Send (mkPayload bob alice (AnswerBody (answer_of (camera 2))))].
Proof.
  apply (first_offer_is_answered
           (run [CallInitialize (inr (camera 2)); SubscribeStatus true]
                (construct standup bob "Bob"))
           alice (offer_of (camera 1)) joined_channel).
  - vm_compute. reflexivity.
  - vm_compute. reflexivity.
  - reflexivity.
Defined.

(** ** The presence handlers on whole snapshots and lists *)

Lemma sync_condition w p :
  bool_decide (pr_userId p ≠ userId w) && negb (peers_has (pr_userId p) w)
  = bool_decide (unlinked_remote (userId w) (peers w) p).
Proof.
  destruct (decide (unlinked_remote (userId w) (peers w) p)) as [[H1 H2]|Hn].
  - rewrite (bool_decide_eq_true_2 (unlinked_remote _ _ _)) by done.
    unfold peers_has. rewrite H2, bool_decide_eq_true_2 by done.
    by rewrite (bool_decide_eq_false_2 (is_Some None)) by (by intros [? ?]).
  - rewrite (bool_decide_eq_false_2 (unlinked_remote _ _ _)) by done.
    destruct (decide (pr_userId p = userId w)) as [Heq|Hne].
    + by rewrite bool_decide_eq_false_2 by (by intros ?).
    + unfold peers_has. destruct (peers w !! pr_userId p) as [i|] eqn:Hp.
      * rewrite (bool_decide_eq_true_2 (is_Some (Some i))) by eauto.
        by rewrite andb_false_r.
      * destruct Hn. by split.
Qed.

Lemma on_sync_spec state w :
  Forall (λ kv : string * list Presence, kv.2 ≠ []) state →
  on_sync state w
  = mkWorld (meetingId w) (userId w) (userName w) (localStream w) (peers w)
      (channel w) (conns w) (pending w)
      (trace w ++ (joined_call <$> filter (unlinked_remote (userId w) (peers w))
                                         (first_presences state))).
Proof.
  revert w. induction state as [|[key ps] rest IH]; intros w Hne.
  - cbn. rewrite app_nil_r. by destruct w.
  - apply Forall_cons in Hne as [Hps Hrest]. cbn in Hps.
    destruct ps as [|p ps]; [done|]. cbn [on_sync].
    rewrite IH by done. rewrite sync_condition.
    unfold first_presences. cbn [omap list_omap head snd].
    fold (first_presences rest).
    destruct (decide (unlinked_remote (userId w) (peers w) p)) as [Hp|Hp].
    + rewrite bool_decide_eq_true_2, filter_cons_True by done. cbn.
      by rewrite <- (assoc_L (++)).
    + rewrite bool_decide_eq_false_2, filter_cons_False by done. done.
Qed.

(** X9: on a snapshot in which every key has a presence, the sync handler
    calls [onParticipantJoined] once for the first presence of every key,
    in snapshot order, unless its user is self or already in the peers
    map; it changes nothing else: no connection is constructed, nothing is
    sent, nothing is suspended. *)
Theorem sync_notifies_the_unlinked_remotes
  (w : World) (state : list (string * list Presence)) (ch : Channel) :
  channel w = Some ch →
  Forall (λ kv : string * list Presence, kv.2 ≠ []) state →
  step (PresenceSync state) w
  = mkWorld (meetingId w) (userId w) (userName w) (localStream w) (peers w)
      (channel w) (conns w) (pending w)
      (trace w ++ (joined_call <$> filter (unlinked_remote (userId w) (peers w))
                                         (first_presences state))).
Proof.
  intros Hch Hne. cbn [step]. rewrite (on_channel_some _ _ ch) by done.
  by apply on_sync_spec.
Qed.

Lemma sync_notifies_witness :
  step (PresenceSync [(alice, [mkPresence alice "Alice"]);
                      (bob, [mkPresence bob "Bob"; mkPresence bob "Bob (phone)"]);
                      (carol, [mkPresence carol "Carol"])]) alice_offered
  = mkWorld (meetingId alice_offered) (userId alice_offered) (userName alice_offered)
      (localStream alice_offered) (peers alice_offered) (channel alice_offered)
      (conns alice_offered) (pending alice_offered)
      (trace alice_offered ++
       (joined_call <$> filter (unlinked_remote (userId alice_offered) (peers alice_offered))
          (first_presences
             [(alice, [mkPresence alice "Alice"]);
              (bob, [mkPresence bob "Bob"; mkPresence bob "Bob (phone)"]);
              (carol, [mkPresence carol "Carol"])]))).
Proof.
  apply (sync_notifies_the_unlinked_remotes alice_offered _ joined_channel).
  - vm_compute. reflexivity.
  - repeat constructor; discriminate.
Defined.

(** In that witness only carol is notified: alice is self, bob is linked. *)
Example sync_notifies_only_carol :
  filter (unlinked_remote (userId alice_offered) (peers alice_offered))
    (first_presences
       [(alice, [mkPresence alice "Alice"]);
        (bob, [mkPresence bob "Bob"; mkPresence bob "Bob (phone)"]);
        (carol, [mkPresence carol "Carol"])])
  = [mkPresence carol "Carol"].
Proof. vm_compute. reflexivity. Qed.

(** X10: a key whose presence list is empty makes the handler throw when it
    reads [presence.userId]: the keys before it were handled, the keys
    after it are never looked at. *)
Theorem sync_stops_at_an_empty_presence_list
  (w : World) (before after : list (string * list Presence)) (key : string)
  (ch : Channel) :
  channel w = Some ch →
  Forall (λ kv : string * list Presence, kv.2 ≠ []) before →
  step (PresenceSync (before ++ (key, []) :: after)) w
  = emit (Unhandled TypeError) (step (PresenceSync before) w).
Proof.
  intros Hch Hne. cbn [step]. rewrite !(on_channel_some _ _ ch) by done.
  clear Hch. revert w. induction before as [|[k ps] rest IH]; intros w.
  - done.
  - apply Forall_cons in Hne as [Hps Hrest]. cbn in Hps.
    destruct ps as [|p ps]; [done|]. cbn [app on_sync]. by apply IH.
Qed.

Lemma sync_stops_witness :
  step (PresenceSync ([(carol, [mkPresence carol "Carol"])]
                      ++ (bob, []) :: [(alice, [mkPresence alice "Alice"])])) alice_ready
  = emit (Unhandled TypeError)
         (step (PresenceSync [(carol, [mkPresence carol "Carol"])]) alice_ready).
Proof.
  apply (sync_stops_at_an_empty_presence_list alice_ready
           [(carol, [mkPresence carol "Carol"])]
           [(alice, [mkPresence alice "Alice"])] bob joined_channel).
  - vm_compute. reflexivity.
  - repeat constructor; discriminate.
Defined.

Lemma on_join_spec ps w :
  let us := remote_ids (userId w) ps in
  let offer := mkSdp SdpOffer (length (local_tracks w)) in
  conns (on_join ps w)
  = conns w ++ ((λ u, mkPC u SigStable (local_tracks w) None None []) <$> us)
  ∧ pending (on_join ps w)
    = pending w ++ imap (λ k u, AfterCreateOffer (length (conns w) + k) u offer) us
  ∧ trace (on_join ps w) = trace w
  ∧ dom (peers (on_join ps w)) = dom (peers w) ∪ list_to_set us.
Proof.
  cbn zeta. revert w. induction ps as [|p ps IH]; intros w.
  - unfold remote_ids. cbn. rewrite !app_nil_r. split; [done|]. split; [done|].
    split; [done|]. by rewrite (right_id_L ∅ (∪)).
  - cbn [on_join]. unfold remote_ids. cbn [fmap list_fmap].
    fold (pr_userId <$> ps).
    destruct (decide (pr_userId p = userId w)) as [Heq|Hne].
    + rewrite bool_decide_eq_false_2 by (by intros ?).
      rewrite filter_cons_False by (by intros ?). apply IH.
    + rewrite bool_decide_eq_true_2, filter_cons_True by done.
      fold (remote_ids (userId w) ps).
      set (w1 := createPeerConnection (pr_userId p) true w).
      assert (w1 = suspend (AfterCreateOffer (length (conns w)) (pr_userId p)
                       (mkSdp SdpOffer (length (local_tracks w))))
                     (set_peers (<[pr_userId p:=length (conns w)]> (peers w))
                        (set_conns (conns w ++ [mkPC (pr_userId p) SigStable
                                      (local_tracks w) None None []]) w))) as Hw1.
      { unfold w1. by rewrite createPeerConnection_initiator, fresh_pc_eq. }
      assert (userId w1 = userId w) as Hid by (by rewrite Hw1).
      assert (local_tracks w1 = local_tracks w) as Hlt by (by rewrite Hw1).
      destruct (IH w1) as (Hc & Hpd & Htr & Hdom).
      rewrite Hid in Hc, Hpd, Hdom. rewrite Hlt in Hc, Hpd.
      rewrite Hc, Hpd, Htr, Hdom. rewrite Hw1. cbn.
      rewrite <- !(assoc_L (++)). cbn.
      split; [done|]. split; [|split; [done|]].
      * do 2 f_equal. rewrite Nat.add_0_r. f_equal.
        apply imap_ext. intros k u _. cbn. rewrite length_app. cbn.
        f_equal. lia.
      * rewrite dom_insert_L. cbn [list_to_set].
        by rewrite (comm_L (∪) {[pr_userId p]} (dom (peers w))), <- (assoc_L (∪)).
Qed.

(** X11: one join event with several presences: for every presence whose user
    is not self, in order and without looking at the peers map, one
    connection with all local tracks is constructed and one
    [createPeerConnection] is left awaiting its offer; a user listed twice
    gets two.  No callback is called and nothing is sent yet; the users are
    added to the peers map. *)
Theorem join_constructs_one_link_per_remote_presence
  (w : World) (ps : list Presence) (ch : Channel) :
  channel w = Some ch →
  let us := remote_ids (userId w) ps in
  let offer := mkSdp SdpOffer (length (local_tracks w)) in
  let w' := step (PresenceJoin ps) w in
  conns w' = conns w ++ ((λ u, mkPC u SigStable (local_tracks w) None None []) <$> us)
  ∧ pending w'
    = pending w ++ imap (λ k u, AfterCreateOffer (length (conns w) + k) u offer) us
  ∧ trace w' = trace w
  ∧ dom (peers w') = dom (peers w) ∪ list_to_set us.
Proof.
  intros Hch. cbn zeta. cbn [step]. rewrite (on_channel_some _ _ ch) by done.
  apply on_join_spec.
Qed.

Lemma join_list_witness :
  let ps := [mkPresence bob "Bob"; mkPresence alice "Alice"; mkPresence bob "Bob"] in
  let us := remote_ids (userId alice_ready) ps in
  let offer := mkSdp SdpOffer (length (local_tracks alice_ready)) in
  let w' := step (PresenceJoin ps) alice_ready in
  conns w' = conns alice_ready
             ++ ((λ u, mkPC u SigStable (local_tracks alice_ready) None None []) <$> us)
  ∧ pending w'
    = pending alice_ready
      ++ imap (λ k u, AfterCreateOffer (length (conns alice_ready) + k) u offer) us
  ∧ trace w' = trace alice_ready
  ∧ dom (peers w') = dom (peers alice_ready) ∪ list_to_set us.
Proof.
  apply (join_constructs_one_link_per_remote_presence alice_ready
           [mkPresence bob "Bob"; mkPresence alice "Alice"; mkPresence bob "Bob"]
           joined_channel).
  vm_compute. reflexivity.
Defined.

Example join_list_remote_ids :
  remote_ids (userId alice_ready)
    [mkPresence bob "Bob"; mkPresence alice "Alice"; mkPresence bob "Bob"]
  = [bob; bob].
Proof. vm_compute. reflexivity. Qed.

(** ** Whom the manager writes to, and as whom *)

Lemma remotes_with_pc i op w w' :
  keeps_link op → with_pc i op w = inr w' → remotes w' = remotes w.
Proof.
  intros Hop Hw.
  destruct (with_pc_frame _ _ _ _ Hw) as (_ & _ & _ & _ & _ & _ & c & c' & Hc & Hopc & Hcs).
  unfold remotes. rewrite Hcs, list_fmap_insert.
  destruct (Hop c c' Hopc) as [-> _].
  apply list_insert_id. by rewrite list_lookup_fmap, Hc.
Qed.

Lemma remotes_alter_close (i : nat) (cs : list RTCPeerConnection) :
  pc_remote <$> alter pc_close i cs = pc_remote <$> cs.
Proof.
  apply list_eq. intros j. rewrite !list_lookup_fmap.
  destruct (decide (i = j)) as [->|Hne].
  - rewrite list_lookup_alter_eq. by destruct (cs !! j).
  - by rewrite list_lookup_alter_ne.
Qed.

Lemma remotes_close_each (ids : list nat) (cs : list RTCPeerConnection) :
  pc_remote <$> close_each ids cs = pc_remote <$> cs.
Proof.
  induction ids as [|i ids IH]; cbn [close_each foldr]; [done|].
  fold (close_each ids cs). by rewrite remotes_alter_close.
Qed.

Lemma sends_emit o w p : p ∈ sends (emit o w) ↔ p ∈ sends w ∨ o = Send p.
Proof.
  unfold sends. cbn. rewrite omap_app, elem_of_app. cbn.
  destruct o; cbn; rewrite ?list_elem_of_singleton, ?elem_of_nil;
    intuition congruence.
Qed.

(** Nothing but the trace changes, by something that is not a broadcast. *)
Lemma sends_wf_frame w w' :
  userId w' = userId w → sends w' = sends w → pending w' = pending w →
  (∀ r, r ∈ remotes w → r ∈ remotes w') →
  sends_wf w → sends_wf w'.
Proof.
  intros Hid Hs Hpd Hr [H1 H2]. split.
  - intros p Hp. rewrite Hs in Hp. destruct (H1 p Hp). rewrite Hid. auto.
  - intros t r Ht Htr. rewrite Hpd in Ht. eauto.
Qed.

Lemma sends_wf_emit o w :
  (∀ p, o = Send p → p_from p = userId w ∧ p_to p ∈ remotes w) →
  sends_wf w → sends_wf (emit o w).
Proof.
  intros Ho [H1 H2]. split; [|done].
  intros p Hp. apply sends_emit in Hp as [Hp| ->]; auto.
Qed.

Lemma sends_wf_channel_send p w :
  p_from p = userId w → p_to p ∈ remotes w → sends_wf w → sends_wf (channel_send p w).
Proof.
  intros Hf Ht Hwf. unfold channel_send.
  destruct (channel w); apply sends_wf_emit; try done. by intros ? [= <-].
Qed.

Lemma sends_wf_suspend t w :
  (∀ r, task_remote t = Some r → r ∈ remotes w) →
  sends_wf w → sends_wf (suspend t w).
Proof.
  intros Ht [H1 H2]. split; [done|].
  intros t' r Hin Hr. cbn in Hin. apply elem_of_app in Hin as [Hin|Hin]; [eauto|].
  apply list_elem_of_singleton in Hin as ->. auto.
Qed.

Lemma sends_wf_with_pc i op w w' :
  keeps_link op → with_pc i op w = inr w' → sends_wf w → sends_wf w'.
Proof.
  intros Hop Hw.
  pose proof (remotes_with_pc _ _ _ _ Hop Hw) as Hr.
  destruct (with_pc_frame _ _ _ _ Hw) as (_ & _ & _ & Hid & Hpd & Htr & _).
  apply sends_wf_frame; try done.
  - unfold sends. by rewrite Htr.
  - intros r. by rewrite Hr.
Qed.

Lemma remotes_createPeerConnection remote b w :
  remotes (createPeerConnection remote b w) = remotes w ++ [remote].
Proof.
  unfold remotes.
  destruct (createPeerConnection_fields remote b w) as (_ & -> & _).
  rewrite fmap_app. cbn. by destruct (fresh_pc_open remote w) as [-> _].
Qed.

Lemma sends_wf_createPeerConnection remote b w :
  sends_wf w → sends_wf (createPeerConnection remote b w).
Proof.
  intros Hwf. destruct b.
  - rewrite createPeerConnection_initiator. apply sends_wf_suspend.
    + intros r [= <-]. unfold remotes. cbn. rewrite fmap_app, elem_of_app.
      right. cbn. destruct (fresh_pc_open remote w) as [-> _]. apply list_elem_of_here.
    + revert Hwf. apply sends_wf_frame; try done.
      intros r Hr. unfold remotes. cbn. rewrite fmap_app, elem_of_app. by left.
  - rewrite createPeerConnection_responder. revert Hwf.
    apply sends_wf_frame; try done.
    intros r Hr. unfold remotes. cbn. rewrite fmap_app, elem_of_app. by left.
Qed.

Lemma linked_remote w u i : links_wf w → peers w !! u = Some i → u ∈ remotes w.
Proof.
  intros Hwf Hu. destruct (Hwf u i Hu) as (c & Hc & <- & _).
  unfold remotes. apply list_elem_of_fmap. exists c. split; [done|].
  by eapply list_elem_of_lookup_2.
Qed.

Lemma sends_wf_handleOffer_apply remote d w :
  links_wf w → sends_wf w → sends_wf (handleOffer_apply remote d w).
Proof.
  intros Hl Hwf. unfold handleOffer_apply.
  destruct (peers w !! remote) as [i|] eqn:Hp; [|done].
  destruct (with_pc _ _ w) as [e|w'] eqn:Hw.
  - by apply sends_wf_emit.
  - apply sends_wf_suspend.
    + intros r [= <-].
      rewrite (remotes_with_pc _ _ _ _ (keeps_link_setRemoteDescription d) Hw).
      by eapply linked_remote.
    + eapply sends_wf_with_pc; eauto using keeps_link_setRemoteDescription.
Qed.

Lemma sends_wf_removePeer u w : sends_wf w → sends_wf (removePeer u w).
Proof.
  unfold removePeer. destruct (peers w !! u); [|done].
  apply sends_wf_frame; try done.
  intros r. unfold remotes. cbn. by rewrite remotes_alter_close.
Qed.

Lemma sends_wf_on_leave ps w : sends_wf w → sends_wf (on_leave ps w).
Proof.
  revert w. induction ps as [|p ps IH]; intros w Hwf; cbn [on_leave]; [done|].
  apply IH, sends_wf_emit; [done|]. by apply sends_wf_removePeer.
Qed.

Lemma sends_wf_on_sync state w : sends_wf w → sends_wf (on_sync state w).
Proof.
  revert w. induction state as [|[key [|p ps]] rest IH]; intros w Hwf; cbn [on_sync].
  - done.
  - by apply sends_wf_emit.
  - apply IH. destruct (_ && _); [by apply sends_wf_emit|done].
Qed.

Lemma sends_wf_on_join ps w : sends_wf w → sends_wf (on_join ps w).
Proof.
  revert w. induction ps as [|p ps IH]; intros w Hwf; cbn [on_join]; [done|].
  apply IH. case_bool_decide; [by apply sends_wf_createPeerConnection|done].
Qed.

Lemma sends_wf_drop_task n w : sends_wf w → sends_wf (set_pending (delete n (pending w)) w).
Proof.
  intros [H1 H2]. split; [done|].
  intros t r Hin. cbn in Hin. apply H2. by eapply list_elem_of_delete_inv.
Qed.

Lemma sends_wf_resume_task t w :
  links_wf w → (∀ r, task_remote t = Some r → r ∈ remotes w) →
  sends_wf w → sends_wf (resume_task t w).
Proof.
  intros Hl Ht Hwf. destruct t; cbn [resume_task].
  - destruct (with_pc _ _ w) as [e|w'] eqn:Hw; [by apply sends_wf_emit|].
    apply sends_wf_suspend.
    + intros r [= <-].
      rewrite (remotes_with_pc _ _ _ _ (keeps_link_setLocalDescription offer) Hw).
      by apply Ht.
    + eapply sends_wf_with_pc; eauto using keeps_link_setLocalDescription.
  - apply sends_wf_channel_send; [done| |done]. by apply Ht.
  - by apply sends_wf_handleOffer_apply.
  - destruct (conns w !! pc); [|by apply sends_wf_emit].
    destruct (pc_createAnswer _); [by apply sends_wf_emit|].
    apply sends_wf_suspend; [|done]. intros r' [= <-]. by apply Ht.
  - destruct (with_pc _ _ w) as [e|w'] eqn:Hw; [by apply sends_wf_emit|].
    apply sends_wf_suspend.
    + intros r [= <-].
      rewrite (remotes_with_pc _ _ _ _ (keeps_link_setLocalDescription answer) Hw).
      by apply Ht.
    + eapply sends_wf_with_pc; eauto using keeps_link_setLocalDescription.
  - apply sends_wf_channel_send; [done| |done]. by apply Ht.
  - unfold removeChannel. destruct (channel w); [|done]. revert Hwf.
    by apply sends_wf_frame.
Qed.

Lemma sends_wf_step e w : links_wf w → sends_wf w → sends_wf (step e w).
Proof.
  intros Hl Hwf. destruct e; cbn [step].
  - destruct media; [done|]. revert Hwf. by apply sends_wf_frame.
  - unfold on_channel, on_subscribe_status. destruct (channel w); [|done].
    destruct subscribed; [|done]. revert Hwf. by apply sends_wf_frame.
  - unfold on_channel. destruct (channel w); [|done]. by apply sends_wf_on_sync.
  - unfold on_channel. destruct (channel w); [|done]. by apply sends_wf_on_join.
  - unfold on_channel. destruct (channel w); [|done]. by apply sends_wf_on_leave.
  - unfold on_channel, on_broadcast. destruct (channel w); [|done].
    case_bool_decide; [|done]. destruct (p_body p).
    + unfold handleOffer. destruct (peers w !! p_from p) eqn:Hp.
      * by apply sends_wf_handleOffer_apply.
      * apply sends_wf_suspend; [|by apply sends_wf_createPeerConnection].
        intros r [= <-]. rewrite remotes_createPeerConnection, elem_of_app.
        right. apply list_elem_of_here.
    + unfold handleAnswer. destruct (peers w !! p_from p); [|done].
      destruct (with_pc _ _ w) as [e|w'] eqn:Hw; [by apply sends_wf_emit|].
      eapply sends_wf_with_pc; eauto using keeps_link_setRemoteDescription.
    + unfold handleIceCandidate. destruct (peers w !! p_from p); [|done].
      destruct (with_pc _ _ w) as [e|w'] eqn:Hw; [by apply sends_wf_emit|].
      eapply sends_wf_with_pc; eauto using keeps_link_addIceCandidate.
  - destruct (conns w !! pc) as [c|] eqn:Hc; [|done]. unfold on_icecandidate.
    destruct candidate; [|done]. apply sends_wf_channel_send; [done| |done].
    cbn. unfold remotes. apply list_elem_of_fmap. exists c. split; [done|].
    by eapply list_elem_of_lookup_2.
  - destruct (conns w !! pc); [|done]. unfold on_track.
    destruct streams; [done|]. by apply sends_wf_emit.
  - destruct (pending w !! n) as [t|] eqn:Ht; [|done].
    apply sends_wf_resume_task.
    + revert Hl. by apply links_wf_frame.
    + intros r Hr. destruct Hwf as [_ H2]. apply (H2 t r); [|done].
      by eapply list_elem_of_lookup_2.
    + by apply sends_wf_drop_task.
  - unfold toggleVideo, toggle_kind. destruct (localStream w); [|done].
    revert Hwf. by apply sends_wf_frame.
  - unfold toggleAudio, toggle_kind. destruct (localStream w); [|done].
    revert Hwf. by apply sends_wf_frame.
  - rewrite cleanup_eq. destruct Hwf as [H1 H2]. split.
    + intros p Hp. destruct (H1 p Hp) as [? Hr]. split; [done|].
      unfold remotes in *. cbn. by rewrite remotes_close_each.
    + intros t r Hin Hr. cbn in Hin. unfold remotes. cbn. rewrite remotes_close_each.
      apply elem_of_app in Hin as [Hin|Hin]; [by eapply H2|].
      destruct (channel w); [|by apply elem_of_nil in Hin].
      apply list_elem_of_singleton in Hin as ->. discriminate Hr.
Qed.

Lemma sends_wf_run es w : links_wf w → sends_wf w → sends_wf (run es w).
Proof.
  revert w. induction es as [|e es IH]; intros w Hl Hwf; [done|].
  unfold run in *. cbn [foldl].
  apply IH; [by apply links_wf_step|by apply sends_wf_step].
Qed.

(** The user id given to the constructor is never written again. *)
Lemma userId_with_pc_result i op w (k : World → World) :
  (∀ w', userId (k w') = userId w') →
  userId match with_pc i op w with
         | inl e => emit (Unhandled e) w
         | inr w' => k w'
         end = userId w.
Proof.
  intros Hk. destruct (with_pc i op w) as [e|w'] eqn:Hw; [done|].
  destruct (with_pc_frame _ _ _ _ Hw) as (_ & _ & _ & Hid & _). by rewrite Hk.
Qed.

Lemma userId_handleOffer_apply remote d w :
  userId (handleOffer_apply remote d w) = userId w.
Proof.
  unfold handleOffer_apply. destruct (peers w !! remote); [|done].
  by apply userId_with_pc_result.
Qed.

Lemma userId_on_sync state w : userId (on_sync state w) = userId w.
Proof.
  revert w. induction state as [|[key [|p ps]] rest IH]; intros w; cbn [on_sync];
    [done|done|].
  rewrite IH. by destruct (_ && _).
Qed.

Lemma userId_on_leave ps w : userId (on_leave ps w) = userId w.
Proof.
  revert w. induction ps as [|p ps IH]; intros w; cbn [on_leave]; [done|].
  rewrite IH. cbn. unfold removePeer. by destruct (peers w !! pr_userId p).
Qed.

Lemma userId_resume_task t w : userId (resume_task t w) = userId w.
Proof.
  destruct t; cbn [resume_task].
  - by apply userId_with_pc_result.
  - by destruct (channel_send_frame (mkPayload (userId w) remote (OfferBody offer)) w)
      as (_ & _ & _ & _ & -> & _).
  - apply userId_handleOffer_apply.
  - destruct (conns w !! pc); [|done]. by destruct (pc_createAnswer _).
  - by apply userId_with_pc_result.
  - by destruct (channel_send_frame (mkPayload (userId w) remote (AnswerBody answer)) w)
      as (_ & _ & _ & _ & -> & _).
  - unfold removeChannel. by destruct (channel w).
Qed.

Lemma userId_step e w : userId (step e w) = userId w.
Proof.
  destruct e; cbn [step].
  - by destruct media.
  - unfold on_channel, on_subscribe_status. by destruct (channel w), subscribed.
  - unfold on_channel. destruct (channel w); [|done]. apply userId_on_sync.
  - unfold on_channel. destruct (channel w); [|done].
    by destruct (on_join_fields newPresences w) as (_ & -> & _).
  - unfold on_channel. destruct (channel w); [|done]. apply userId_on_leave.
  - unfold on_channel, on_broadcast. destruct (channel w); [|done].
    case_bool_decide; [|done]. destruct (p_body p).
    + unfold handleOffer. destruct (peers w !! p_from p).
      * apply userId_handleOffer_apply.
      * cbn. by destruct (createPeerConnection_fields (p_from p) false w)
          as (_ & _ & _ & _ & -> & _).
    + unfold handleAnswer. destruct (peers w !! p_from p); [|done].
      by apply userId_with_pc_result.
    + unfold handleIceCandidate. destruct (peers w !! p_from p); [|done].
      by apply userId_with_pc_result.
  - destruct (conns w !! pc); [|done]. unfold on_icecandidate.
    destruct candidate; [|done].
    by destruct (channel_send_frame (mkPayload (userId w) (pc_remote r) (CandidateBody c)) w)
      as (_ & _ & _ & _ & -> & _).
  - destruct (conns w !! pc); [|done]. unfold on_track. by destruct streams.
  - destruct (pending w !! n); [|done]. by rewrite userId_resume_task.
  - unfold toggleVideo, toggle_kind. by destruct (localStream w).
  - unfold toggleAudio, toggle_kind. by destruct (localStream w).
  - by rewrite cleanup_eq.
Qed.

Lemma userId_run es w : userId (run es w) = userId w.
Proof.
  revert w. induction es as [|e es IH]; intros w; [done|].
  unfold run in *. cbn [foldl]. by rewrite IH, userId_step.
Qed.

(** X2: whatever events a manager has gone through since it was constructed,
    every message it has broadcast carries its own user id as [from] and
    is addressed to a user for whom it had constructed a connection: it
    never writes under another identity, and never to a user it did not
    link to. *)
Theorem every_broadcast_is_signed_and_addressed_to_a_link
  (mid uid uname : string) (es : list Event) (p : Payload) :
  let w := run es (construct mid uid uname) in
  p ∈ sends w → p_from p = uid ∧ p_to p ∈ remotes w.
Proof.
  intros w Hp. subst w.
  assert (sends_wf (run es (construct mid uid uname))) as [H1 _].
  { apply sends_wf_run; [apply links_wf_construct|].
    split; [intros q Hq; by apply elem_of_nil in Hq
           |intros t r Ht; by apply elem_of_nil in Ht]. }
  destruct (H1 p Hp) as [Hf Ht]. split; [|done].
  by rewrite Hf, userId_run.
Qed.

Lemma every_broadcast_witness :
  let w := run [CallInitialize (inr (camera 1)); SubscribeStatus true;
                PresenceJoin [mkPresence bob "Bob"]; Resume 0; Resume 0;
                IceCandidateFound 0 (Some 7)]
               (construct standup alice "Alice") in
  p_from (mkPayload alice bob (CandidateBody 7)) = alice
  ∧ p_to (mkPayload alice bob (CandidateBody 7)) ∈ remotes w.
Proof.
  apply (every_broadcast_is_signed_and_addressed_to_a_link standup alice "Alice"
           [CallInitialize (inr (camera 1)); SubscribeStatus true;
            PresenceJoin [mkPresence bob "Bob"]; Resume 0; Resume 0;
            IceCandidateFound 0 (Some 7)]
           (mkPayload alice bob (CandidateBody 7))).
  vm_compute. apply list_elem_of_further, list_elem_of_here.
Defined.

(** ** The roster of the meeting page *)

Lemma roster_of_snoc tr o : roster_of (tr ++ [o]) = ui_callback (roster_of tr) o.
Proof. unfold roster_of. by rewrite foldl_snoc. Qed.

Lemma last_joined_snoc u tr o :
  last_joined u (tr ++ [o])
  = match membership u o with Some b => b | None => last_joined u tr end.
Proof.
  unfold last_joined. rewrite omap_app, last_app. cbn.
  by destruct (membership u o).
Qed.

(** X13: after any sequence of calls of the three callbacks, the roster the
    page renders contains a user exactly when the last
    [onParticipantJoined]/[onParticipantLeft] call about that user was
    [onParticipantJoined]; [onStreamAdded] never adds or removes an entry,
    and every entry is stored under its own user id. *)
Theorem roster_holds_who_joined_last (tr : list Output) (u : string) :
  (is_Some (roster_of tr !! u) ↔ last_joined u tr = true)
  ∧ (∀ p, roster_of tr !! u = Some p → part_userId p = u).
Proof.
  induction tr as [|o tr [IH1 IH2]] using rev_ind.
  - unfold roster_of, last_joined. cbn. rewrite lookup_empty.
    split; [|done]. split; [by intros [? ?]|done].
  - rewrite roster_of_snoc, last_joined_snoc.
    destruct o as [q|v n|v|v s|e]; cbn [ui_callback membership]; try done.
    + destruct (decide (v = u)) as [->|Hne].
      * rewrite lookup_insert_eq. split; [by split; eauto|]. by intros p [= <-].
      * by rewrite lookup_insert_ne.
    + destruct (decide (v = u)) as [->|Hne].
      * rewrite lookup_delete_eq. split; [|done]. split; [by intros [? ?]|done].
      * by rewrite lookup_delete_ne.
    + destruct (roster_of tr !! v) as [p|] eqn:Hv; [|done].
      destruct (decide (v = u)) as [->|Hne].
      * rewrite lookup_insert_eq. split.
        -- rewrite <- IH1, Hv. split; eauto.
        -- intros p' [= <-]. cbn. by apply IH2.
      * by rewrite lookup_insert_ne.
Qed.

(** ** Muting composes *)

Lemma set_enabled_twice k b b' t :
  set_enabled k b (set_enabled k b' t) = set_enabled k b t.
Proof.
  unfold set_enabled. destruct (decide (track_kind t = k)) as [Hk|Hk]; cbn.
  - by rewrite decide_True by done.
  - by rewrite decide_False by done.
Qed.

Lemma set_enabled_comm k k' b b' t :
  k ≠ k' →
  set_enabled k b (set_enabled k' b' t) = set_enabled k' b' (set_enabled k b t).
Proof.
  intros Hne. destruct t as [kt e st]. unfold set_enabled.
  destruct kt, k, k'; done.
Qed.

Lemma toggle_kind_eq k b w :
  toggle_kind k b w
  = set_localStream
      ((λ s, mkStream (stream_id s) (set_enabled k b <$> stream_tracks s))
         <$> localStream w) w.
Proof.
  unfold toggle_kind. destruct w as [mid uid un [s|] ps ch cs pd tr]; done.
Qed.

(** X14: of two calls of [toggleVideo] (or of [toggleAudio]) only the last one
    counts, and muting video and muting audio can be done in either
    order. *)
Theorem toggles_last_call_wins_and_commute (b b' : bool) (w : World) :
  toggleVideo b (toggleVideo b' w) = toggleVideo b w
  ∧ toggleAudio b (toggleAudio b' w) = toggleAudio b w
  ∧ toggleVideo b (toggleAudio b' w) = toggleAudio b' (toggleVideo b w).
Proof.
  unfold toggleVideo, toggleAudio. rewrite !toggle_kind_eq.
  destruct w as [mid uid un [s|] ps ch cs pd tr]; cbn; [|done].
  unfold set_localStream. cbn.
  repeat split; do 3 f_equal; rewrite <- !list_fmap_compose;
    apply list_fmap_ext; intros i t _; cbn;
    auto using set_enabled_twice, set_enabled_comm.
Qed.

Lemma flags_of_toggled k b w :
  Forall (λ f, f = b) (flags_of k (toggle_kind k b w)).
Proof.
  unfold flags_of. rewrite toggle_kind_tracks.
  induction (local_stream_tracks w) as [|t ts IH]; cbn [fmap list_fmap]; [constructor|].
  destruct (decide (track_kind t = k)) as [Hk|Hk].
  - rewrite filter_cons_True by (by rewrite set_enabled_kind).
    cbn [fmap list_fmap]. constructor; [|done].
    rewrite set_enabled_flag. by rewrite decide_True.
  - by rewrite filter_cons_False by (by rewrite set_enabled_kind).
Qed.

Lemma flags_of_other_kind k k' b w :
  k ≠ k' → flags_of k' (toggle_kind k b w) = flags_of k' w.
Proof.
  intros Hne. unfold flags_of. rewrite toggle_kind_tracks.
  induction (local_stream_tracks w) as [|t ts IH]; cbn [fmap list_fmap]; [done|].
  destruct (decide (track_kind t = k')) as [Hk|Hk].
  - rewrite !filter_cons_True by (by rewrite ?set_enabled_kind).
    cbn [fmap list_fmap]. rewrite IH, set_enabled_flag.
    by rewrite decide_False by congruence.
  - by rewrite !filter_cons_False by (by rewrite ?set_enabled_kind).
Qed.

(** X15: the two buttons of the meeting page, once the manager exists.  A click
    on the video button flips [isVideoOn] and leaves every local video
    track with exactly that value as its [enabled] flag; the audio flag of
    the page, the audio tracks, and everything of the manager but the local
    media are untouched; a second click brings [isVideoOn] back.  The same
    holds for the audio button with the kinds exchanged. *)
Theorem page_buttons_agree_with_the_tracks (pg : Page) (m : World) :
  webrtcManagerRef pg = Some m →
  (isVideoOn (page_toggleVideo pg) = negb (isVideoOn pg)
   ∧ isAudioOn (page_toggleVideo pg) = isAudioOn pg
   ∧ isVideoOn (page_toggleVideo (page_toggleVideo pg)) = isVideoOn pg
   ∧ ∃ m1, webrtcManagerRef (page_toggleVideo pg) = Some m1
           ∧ Forall (λ f, f = isVideoOn (page_toggleVideo pg)) (flags_of VideoTrack m1)
           ∧ flags_of AudioTrack m1 = flags_of AudioTrack m
           ∧ same_signalling m m1)
  ∧ (isAudioOn (page_toggleAudio pg) = negb (isAudioOn pg)
     ∧ isVideoOn (page_toggleAudio pg) = isVideoOn pg
     ∧ isAudioOn (page_toggleAudio (page_toggleAudio pg)) = isAudioOn pg
     ∧ ∃ m1, webrtcManagerRef (page_toggleAudio pg) = Some m1
             ∧ Forall (λ f, f = isAudioOn (page_toggleAudio pg)) (flags_of AudioTrack m1)
             ∧ flags_of VideoTrack m1 = flags_of VideoTrack m
             ∧ same_signalling m m1).
Proof.
  intros Hm. unfold page_toggleVideo, page_toggleAudio. rewrite Hm. cbn.
  rewrite !negb_involutive.
  split; (split; [done|]; split; [done|]; split; [done|]; eexists; split; [done|]).
  - unfold toggleVideo. split; [apply flags_of_toggled|].
    split; [by apply flags_of_other_kind|apply toggle_kind_frame].
  - unfold toggleAudio. split; [apply flags_of_toggled|].
    split; [by apply flags_of_other_kind|apply toggle_kind_frame].
Qed.

Lemma page_buttons_witness :
  let pg := mkPage true true (Some alice_offered) in
  (isVideoOn (page_toggleVideo pg) = negb (isVideoOn pg)
   ∧ isAudioOn (page_toggleVideo pg) = isAudioOn pg
   ∧ isVideoOn (page_toggleVideo (page_toggleVideo pg)) = isVideoOn pg
   ∧ ∃ m1, webrtcManagerRef (page_toggleVideo pg) = Some m1
           ∧ Forall (λ f, f = isVideoOn (page_toggleVideo pg)) (flags_of VideoTrack m1)
           ∧ flags_of AudioTrack m1 = flags_of AudioTrack alice_offered
           ∧ same_signalling alice_offered m1)
  ∧ (isAudioOn (page_toggleAudio pg) = negb (isAudioOn pg)
     ∧ isVideoOn (page_toggleAudio pg) = isVideoOn pg
     ∧ isAudioOn (page_toggleAudio (page_toggleAudio pg)) = isAudioOn pg
     ∧ ∃ m1, webrtcManagerRef (page_toggleAudio pg) = Some m1
             ∧ Forall (λ f, f = isAudioOn (page_toggleAudio pg)) (flags_of AudioTrack m1)
             ∧ flags_of VideoTrack m1 = flags_of VideoTrack alice_offered
             ∧ same_signalling alice_offered m1).
Proof.
  apply (page_buttons_agree_with_the_tracks
           (mkPage true true (Some alice_offered)) alice_offered).
  reflexivity.
Defined.

(** Before the manager exists the buttons do nothing. *)
Lemma page_buttons_without_manager v a :
  page_toggleVideo (mkPage v a None) = mkPage v a None
  ∧ page_toggleAudio (mkPage v a None) = mkPage v a None.
Proof. done. Qed.

(** ** More on links, leaves and the two meeting views *)

(** X1: in every state a manager can reach from its constructor, each entry of
    the peers map refers to a connection that was constructed for that
    very user and has not been closed, and no two users share a
    connection. *)
Theorem peers_map_holds_open_links_of_their_users (w : World) :
  reachable w →
  links_wf w
  ∧ (∀ u v i, peers w !! u = Some i → peers w !! v = Some i → u = v).
Proof.
  intros Hr. pose proof (reachable_links_wf w Hr) as Hwf.
  split; [done|]. intros u v i. by apply peers_injective.
Qed.

Lemma peers_map_witness :
  links_wf bob_answered
  ∧ (∀ u v i, peers bob_answered !! u = Some i → peers bob_answered !! v = Some i → u = v).
Proof.
  apply (peers_map_holds_open_links_of_their_users bob_answered).
  exists standup, bob, "Bob"%string,
    [CallInitialize (inr (camera 2)); SubscribeStatus true;
     Broadcast (mkPayload alice bob (OfferBody (offer_of (camera 1))));
     Resume 0; Resume 0; Resume 0; Resume 0].
  reflexivity.
Defined.

Lemma on_leave_spec ps w :
  trace (on_leave ps w) = trace w ++ ((λ p, ParticipantLeft (pr_userId p)) <$> ps)
  ∧ (∀ v, peers (on_leave ps w) !! v
          = if bool_decide (v ∈ pr_userId <$> ps) then None else peers w !! v)
  ∧ pending (on_leave ps w) = pending w.
Proof.
  revert w. induction ps as [|p ps IH]; intros w; cbn [on_leave fmap list_fmap].
  - rewrite app_nil_r. split; [done|]. split; [|done]. intros v.
    by rewrite bool_decide_eq_false_2 by apply not_elem_of_nil.
  - destruct (IH (emit (ParticipantLeft (pr_userId p)) (removePeer (pr_userId p) w)))
      as (-> & Hp & ->).
    assert (peers (emit (ParticipantLeft (pr_userId p)) (removePeer (pr_userId p) w))
            = delete (pr_userId p) (peers w)) as Hdel.
    { unfold removePeer. destruct (peers w !! pr_userId p) eqn:Hu; cbn; [done|].
      by rewrite delete_id. }
    split; [|split].
    + cbn. unfold removePeer. destruct (peers w !! pr_userId p); cbn;
        by rewrite <- (assoc_L (++)).
    + intros v. rewrite Hp, Hdel.
      destruct (decide (v = pr_userId p)) as [->|Hne].
      * rewrite (bool_decide_eq_true_2 (_ ∈ _ :: _)) by apply list_elem_of_here.
        rewrite lookup_delete_eq. by case_bool_decide.
      * rewrite lookup_delete_ne by done.
        rewrite (bool_decide_ext (v ∈ pr_userId p :: (pr_userId <$> ps))
                                 (v ∈ pr_userId <$> ps)); [done|].
        rewrite elem_of_cons. intuition congruence.
    + unfold removePeer. by destruct (peers w !! pr_userId p).
Qed.

(** X5: one leave event with several presences: [onParticipantLeft] is called
    once for every presence in the list, in order, whether or not the user
    had a link (and also for self); afterwards none of the listed users is
    in the peers map and every other entry is as before. *)
Theorem leave_notifies_for_every_presence
  (w : World) (ps : list Presence) (ch : Channel) :
  channel w = Some ch →
  let w' := step (PresenceLeave ps) w in
  trace w' = trace w ++ ((λ p, ParticipantLeft (pr_userId p)) <$> ps)
  ∧ (∀ v, peers w' !! v
          = if bool_decide (v ∈ pr_userId <$> ps) then None else peers w !! v)
  ∧ pending w' = pending w.
Proof.
  intros Hch. cbn zeta. cbn [step]. rewrite (on_channel_some _ _ ch) by done.
  apply on_leave_spec.
Qed.

Lemma leave_list_witness :
  let ps := [mkPresence carol "Carol"; mkPresence bob "Bob"; mkPresence alice "Alice"] in
  let w' := step (PresenceLeave ps) alice_offered in
  trace w' = trace alice_offered ++ ((λ p, ParticipantLeft (pr_userId p)) <$> ps)
  ∧ (∀ v, peers w' !! v
          = if bool_decide (v ∈ pr_userId <$> ps) then None
            else peers alice_offered !! v)
  ∧ pending w' = pending alice_offered.
Proof.
  apply (leave_notifies_for_every_presence alice_offered
           [mkPresence carol "Carol"; mkPresence bob "Bob"; mkPresence alice "Alice"]
           joined_channel).
  vm_compute. reflexivity.
Defined.

Lemma offer_reuse_witness :
  peers (handleOffer bob (offer_of (camera 2)) alice_offered) = peers alice_offered
  ∧ length (conns (handleOffer bob (offer_of (camera 2)) alice_offered))
    = length (conns alice_offered).
Proof.
  apply (handleOffer_reuses_link alice_offered bob (offer_of (camera 2)) 0).
  vm_compute. reflexivity.
Defined.



(** ** Connections the map has lost *)

Lemma orphan_frame i r w w' :
  conns w' = conns w → peers w' = peers w → orphan i r w → orphan i r w'.
Proof. unfold orphan. by intros -> ->. Qed.

Lemma orphan_with_pc i r j op w w' :
  keeps_link op → with_pc j op w = inr w' → orphan i r w → orphan i r w'.
Proof.
  intros Hop Hw [(c & Hc & Hr & Hs) Hun].
  destruct (with_pc_frame _ _ _ _ Hw) as (Hp & _ & _ & _ & _ & _ & cj & cj' & Hcj & Hopc & Hcs).
  split; [|by rewrite Hp]. rewrite Hcs.
  destruct (decide (j = i)) as [->|Hne].
  - exists cj'. rewrite list_lookup_insert_eq by (by eapply lookup_lt_Some).
    assert (cj = c) as -> by congruence.
    destruct (Hop c cj' Hopc) as [-> Hkeep]. auto.
  - exists c. by rewrite list_lookup_insert_ne.
Qed.

Lemma orphan_createPeerConnection i r remote b w :
  orphan i r w → orphan i r (createPeerConnection remote b w).
Proof.
  intros [(c & Hc & Hr & Hs) Hun].
  destruct (createPeerConnection_fields remote b w) as (Hp & Hcs & _).
  cbn zeta in Hp, Hcs. pose proof (lookup_lt_Some _ _ _ Hc) as Hlt. split.
  - exists c. by rewrite Hcs, lookup_app_l.
  - intros u. rewrite Hp. destruct (decide (remote = u)) as [->|Hne].
    + rewrite lookup_insert_eq. intros [= ?]. lia.
    + rewrite lookup_insert_ne by done. apply Hun.
Qed.

Lemma orphan_handleOffer_apply i r remote d w :
  orphan i r w → orphan i r (handleOffer_apply remote d w).
Proof.
  intros Ho. unfold handleOffer_apply. destruct (peers w !! remote); [|done].
  destruct (with_pc _ _ w) as [e|w'] eqn:Hw; [by apply (orphan_frame i r w)|].
  apply (orphan_frame i r w'); [done|done|].
  eapply orphan_with_pc; eauto using keeps_link_setRemoteDescription.
Qed.

Lemma orphan_removePeer i r u w : orphan i r w → orphan i r (removePeer u w).
Proof.
  intros [(c & Hc & Hr & Hs) Hun]. unfold removePeer.
  destruct (peers w !! u) as [j|] eqn:Hu; [|by split; eauto].
  split; cbn.
  - exists c. rewrite list_lookup_alter_ne; [done|]. intros ->. by apply (Hun u).
  - intros v Hv. apply lookup_delete_Some in Hv as [_ Hv]. by apply (Hun v).
Qed.

Lemma orphan_on_leave i r ps w : orphan i r w → orphan i r (on_leave ps w).
Proof.
  revert w. induction ps as [|p ps IH]; intros w Ho; cbn [on_leave]; [done|].
  apply IH. apply (orphan_frame i r (removePeer (pr_userId p) w)); [done|done|].
  by apply orphan_removePeer.
Qed.

Lemma orphan_on_sync i r state w : orphan i r w → orphan i r (on_sync state w).
Proof.
  revert w. induction state as [|[key [|p ps]] rest IH]; intros w Ho; cbn [on_sync].
  - done.
  - by apply (orphan_frame i r w).
  - apply IH. destruct (_ && _); [by apply (orphan_frame i r w)|done].
Qed.

Lemma orphan_on_join i r ps w : orphan i r w → orphan i r (on_join ps w).
Proof.
  revert w. induction ps as [|p ps IH]; intros w Ho; cbn [on_join]; [done|].
  apply IH. case_bool_decide; [by apply orphan_createPeerConnection|done].
Qed.

Lemma orphan_channel_send i r p w : orphan i r w → orphan i r (channel_send p w).
Proof.
  destruct (channel_send_frame p w) as (Hp & Hc & _). by apply orphan_frame.
Qed.

Lemma orphan_resume_task i r t w : orphan i r w → orphan i r (resume_task t w).
Proof.
  intros Ho. destruct t; cbn [resume_task].
  - destruct (with_pc _ _ w) as [e|w'] eqn:Hw; [by apply (orphan_frame i r w)|].
    apply (orphan_frame i r w'); [done|done|].
    eapply orphan_with_pc; eauto using keeps_link_setLocalDescription.
  - by apply orphan_channel_send.
  - by apply orphan_handleOffer_apply.
  - destruct (conns w !! pc); [|by apply (orphan_frame i r w)].
    destruct (pc_createAnswer _); by apply (orphan_frame i r w).
  - destruct (with_pc _ _ w) as [e|w'] eqn:Hw; [by apply (orphan_frame i r w)|].
    apply (orphan_frame i r w'); [done|done|].
    eapply orphan_with_pc; eauto using keeps_link_setLocalDescription.
  - by apply orphan_channel_send.
  - unfold removeChannel. destruct (channel w); [|done]. by apply (orphan_frame i r w).
Qed.

Lemma orphan_step i r e w : orphan i r w → orphan i r (step e w).
Proof.
  intros Ho. destruct e; cbn [step].
  - destruct media; [done|]. by apply (orphan_frame i r w).
  - unfold on_channel, on_subscribe_status. destruct (channel w); [|done].
    destruct subscribed; [|done]. by apply (orphan_frame i r w).
  - unfold on_channel. destruct (channel w); [|done]. by apply orphan_on_sync.
  - unfold on_channel. destruct (channel w); [|done]. by apply orphan_on_join.
  - unfold on_channel. destruct (channel w); [|done]. by apply orphan_on_leave.
  - unfold on_channel, on_broadcast. destruct (channel w); [|done].
    case_bool_decide; [|done]. destruct (p_body p).
    + unfold handleOffer. destruct (peers w !! p_from p).
      * by apply orphan_handleOffer_apply.
      * apply (orphan_frame i r (createPeerConnection (p_from p) false w)); [done|done|].
        by apply orphan_createPeerConnection.
    + unfold handleAnswer. destruct (peers w !! p_from p); [|done].
      destruct (with_pc _ _ w) as [e|w'] eqn:Hw; [by apply (orphan_frame i r w)|].
      eapply orphan_with_pc; eauto using keeps_link_setRemoteDescription.
    + unfold handleIceCandidate. destruct (peers w !! p_from p); [|done].
      destruct (with_pc _ _ w) as [e|w'] eqn:Hw; [by apply (orphan_frame i r w)|].
      eapply orphan_with_pc; eauto using keeps_link_addIceCandidate.
  - destruct (conns w !! pc); [|done]. unfold on_icecandidate.
    destruct candidate; [|done]. by apply orphan_channel_send.
  - destruct (conns w !! pc); [|done]. unfold on_track.
    destruct streams; [done|]. by apply (orphan_frame i r w).
  - destruct (pending w !! n); [|done]. apply orphan_resume_task.
    by apply (orphan_frame i r w).
  - unfold toggleVideo, toggle_kind. destruct (localStream w); [|done].
    by apply (orphan_frame i r w).
  - unfold toggleAudio, toggle_kind. destruct (localStream w); [|done].
    by apply (orphan_frame i r w).
  - destruct Ho as [(c & Hc & Hr & Hs) Hun]. rewrite cleanup_eq. split; cbn.
    + exists c. rewrite close_each_lookup, bool_decide_eq_false_2; [done|].
      rewrite held_by_peers. intros (u & Hu). by apply (Hun u).
    + intros u. by rewrite lookup_empty.
Qed.

(** X19: an open connection that the peers map does not refer to (the one
    a second join event for the same user has pushed out of the map) is
    never closed and never entered in the map again, whatever events
    follow, [removePeer] and [cleanup()] included: the manager closes
    connections only through the map. *)
Theorem a_link_dropped_from_the_map_is_never_closed
  (i : nat) (r : string) (es : list Event) (w : World) :
  orphan i r w → orphan i r (run es w).
Proof.
  revert w. induction es as [|e es IH]; intros w Ho; [done|].
  unfold run in *. cbn [foldl]. by apply IH, orphan_step.
Qed.

Lemma dropped_link_witness :
  orphan 0 bob
    (run [PresenceLeave [mkPresence bob "Bob"]; CallCleanup; Resume 0;
          Broadcast (mkPayload bob alice (AnswerBody (answer_of (camera 2))))]
       (run_to_completion (step (PresenceJoin [mkPresence bob "Bob"]) alice_offered))).
Proof.
  apply (a_link_dropped_from_the_map_is_never_closed 0 bob).
  split.
  - eexists. split; [vm_compute; reflexivity|]. split; [reflexivity|discriminate].
  - intros u Hu.
    assert (peers (run_to_completion
                     (step (PresenceJoin [mkPresence bob "Bob"]) alice_offered))
            = <[bob:=1]> ∅) as Hp by (vm_compute; reflexivity).
    rewrite Hp in Hu. apply lookup_insert_Some in Hu as [[_ ?]|[_ Hu]]; [lia|].
    by rewrite lookup_empty in Hu.
Defined.

(** ** What goes on after [cleanup()] has completed *)






(** What these leave in the trace, and the one suspended method that does
    stop: a [handleOffer] still awaiting its responder link. *)
Example stale_callbacks_traces :
  let after w := step (Resume 0) (cleanup_completed w) in
  trace (after alice_joining) = [Unhandled InvalidStateError]
  ∧ trace (after alice_offering)
    = [Send (mkPayload alice bob (OfferBody (offer_of (camera 1))))]
  ∧ trace (after (bob_in_handleOffer 0)) = []
  ∧ trace (after (bob_in_handleOffer 1)) = [Unhandled InvalidStateError]
  ∧ trace (after (bob_in_handleOffer 2)) = [Unhandled InvalidStateError]
  ∧ trace (after (bob_in_handleOffer 3))
    = [Send (mkPayload bob alice (AnswerBody (answer_of (camera 2))))]
  ∧ peers (after alice_offering) = ∅
  ∧ peers (after (bob_in_handleOffer 3)) = ∅
  ∧ bob_in_handleOffer 4 = bob_answered.
Proof. vm_compute. done. Qed.

Example stale_responder_is_ignored :
  stale_callback_ignored (bob_in_handleOffer 0) (Resume 0).
Proof. unfold stale_callback_ignored, nothing_observable. vm_compute. done. Qed.
